(** * Three SOLID demonstration programs: models and verification

    - the invoice pipeline (01-invoice-srp-ocp.cpp): line items,
      discount strategies and a tax rule give the totals, which are
      rendered as text; an optional recipient is notified and one audit
      line is written;
    - the media players (02-media-lsp-isp, in two versions): an audio
      player and a live stream player behind capability interfaces;
    - the sign-up notifications (03-notify-dip-ocp.cpp): notifiers
      composed into one and triggered by a sign-up service.

    All amounts of the invoice pipeline are C++ [double]s; they are
    modelled as IEEE 754 binary64 values with the Standard Library's
    [spec_float] (precision 53, maximal exponent 1024, round to
    nearest, ties to even). *)

From Stdlib Require Import ZArith List String Ascii Bool Lia Permutation.
From Stdlib Require Import SpecFloat DecimalString.
Import ListNotations.

Local Open Scope Z_scope.

(** ** The [double] type and its arithmetic *)

Module Double.

Definition prec : Z := 53.
Definition emax : Z := 1024.

Definition double : Type := spec_float.

Definition add : double -> double -> double := SFadd prec emax.
Definition sub : double -> double -> double := SFsub prec emax.
Definition mul : double -> double -> double := SFmul prec emax.
Definition div : double -> double -> double := SFdiv prec emax.

(** Conversion of a C++ [int] to [double] (exact on the whole [int]
    range, since an [int] has at most 31 significant bits). *)
Definition of_int (z : Z) : double := binary_normalize prec emax z 0 false.

(** The value of the decimal literal [n/d], correctly rounded. *)
Definition of_ratio (n d : Z) : double := div (of_int n) (of_int d).

Definition zero : double := S754_zero false.

Definition ltb : double -> double -> bool := SFltb.
Definition eqb : double -> double -> bool := SFeqb.

Definition signbit (x : double) : bool :=
  match x with
  | S754_zero s | S754_infinity s | S754_finite s _ _ => s
  | S754_nan => false
  end.

Definition is_nan (x : double) : bool :=
  match x with S754_nan => true | _ => false end.

Definition is_finite (x : double) : bool :=
  match x with S754_zero _ | S754_finite _ _ _ => true | _ => false end.

End Double.

Export Double.

Declare Scope double_scope.
Delimit Scope double_scope with D.
Bind Scope double_scope with double.
Infix "+" := add : double_scope.
Infix "-" := sub : double_scope.
Infix "*" := mul : double_scope.
Infix "/" := div : double_scope.

(** The 32-bit C++ [int]. *)
Definition int_range (z : Z) : Prop := -2147483648 <= z <= 2147483647.


(** ** Text formatting of numbers

    [operator<<] on an [ostream] prints an [int] in decimal and a
    [double] as [printf]'s [%g] does with the default precision 6;
    [std::to_string(double)] prints as [%f] does, with six decimals.
    Both conversions round the exact binary value to nearest, ties to
    even. *)

Module Format.

Local Open Scope string_scope.

Definition nl : string := String (ascii_of_nat 10) EmptyString.

Definition dec (n : Z) : string := NilZero.string_of_int (Z.to_int n).

Definition digit (d : Z) : ascii := ascii_of_nat (48 + Z.to_nat d).

(** The [k] low decimal digits of [n], most significant first. *)
Fixpoint fixed_digits (k : nat) (n : Z) : string :=
  match k with
  | O => EmptyString
  | S k' => fixed_digits k' (n / 10) ++ String (digit (n mod 10)) EmptyString
  end.

Fixpoint strip_zeros (s : string) : string :=
  match s with
  | EmptyString => EmptyString
  | String c s' =>
      match strip_zeros s' with
      | EmptyString => if Ascii.eqb c "0" then EmptyString else String c EmptyString
      | r => String c r
      end
  end.

Definition round_half_even (n d : Z) : Z :=
  let q := n / d in
  match (2 * (n mod d) ?= d)%Z with
  | Lt => q
  | Gt => q + 1
  | Eq => if Z.even q then q else q + 1
  end.

(** [scaled m e k]: the integer nearest to [m * 2^e * 10^k]. *)
Definition scaled (m : positive) (e k : Z) : Z :=
  round_half_even (Zpos m * 2 ^ Z.max e 0 * 10 ^ Z.max k 0)
                  (2 ^ Z.max (- e) 0 * 10 ^ Z.max (- k) 0).

(** [10^k <= m * 2^e] *)
Definition ge_pow10 (m : positive) (e k : Z) : bool :=
  (10 ^ Z.max k 0 * 2 ^ Z.max (- e) 0 <=? Zpos m * 2 ^ Z.max e 0 * 10 ^ Z.max (- k) 0)%Z.

(** The decimal exponent [floor (log10 (m * 2^e))], found from the
    binary exponent. *)
Definition exp10 (m : positive) (e : Z) : Z :=
  let b := Zpos (digits2_pos m) + e - 1 in
  let k := b * 30103 / 100000 - 2 in
  if ge_pow10 m e (k + 4) then k + 4
  else if ge_pow10 m e (k + 3) then k + 3
  else if ge_pow10 m e (k + 2) then k + 2
  else if ge_pow10 m e (k + 1) then k + 1
  else k.

Definition sign_str (s : bool) : string := if s then "-" else EmptyString.

Definition with_fraction (int_part frac : string) : string :=
  match frac with
  | EmptyString => int_part
  | _ => int_part ++ "." ++ frac
  end.

(** [std::to_string(double)], that is [%f].  A NaN is written [nan]
    here; the program also writes [-nan], see [to_string_text]. *)
Definition to_string (x : double) : string :=
  match x with
  | S754_nan => "nan"
  | S754_infinity s => sign_str s ++ "inf"
  | S754_zero s => sign_str s ++ "0." ++ fixed_digits 6 0
  | S754_finite s m e =>
      let n := scaled m e 6 in
      sign_str s ++ dec (n / 10 ^ 6) ++ "." ++ fixed_digits 6 n
  end.

(** [out << double] with the stream's default flags, that is [%g].
    A NaN is written [nan] here; the program also writes [-nan], see
    [stream_text]. *)
Definition show_double (x : double) : string :=
  match x with
  | S754_nan => "nan"
  | S754_infinity s => sign_str s ++ "inf"
  | S754_zero s => sign_str s ++ "0"
  | S754_finite s m e =>
      let x0 := exp10 m e in
      let n0 := scaled m e (5 - x0) in
      let '(n, X) := if (10 ^ 6 <=? n0)%Z then (10 ^ 5, x0 + 1) else (n0, x0) in
      if ((-4 <=? X) && (X <? 6))%Z then
        let p := 5 - X in
        sign_str s ++
        with_fraction (dec (n / 10 ^ p)) (strip_zeros (fixed_digits (Z.to_nat p) n))
      else
        sign_str s ++
        with_fraction (dec (n / 10 ^ 5)) (strip_zeros (fixed_digits 5 n)) ++
        "e" ++ (if (X <? 0)%Z then "-" else "+") ++
        (if (Z.abs X <? 10)%Z then "0" else EmptyString) ++ dec (Z.abs X)
  end.

(** [out << int] *)
Definition show_int (n : Z) : string := dec n.

End Format.

(** ** Output streams

    An [ostringstream] (and [cout]) is the text written so far;
    [out << s] appends. *)

Definition ostream : Type := string.

Definition put (out : ostream) (s : string) : ostream := (out ++ s)%string.

Declare Scope stream_scope.
Delimit Scope stream_scope with stream.
Notation "out << s" := (put out s) (at level 40, left associativity) : stream_scope.

(** ** Data model *)

Record LineItem : Type := {
  sku : string;
  quantity : Z;
  unitPrice : double
}.

(** ** Discount strategies *)

Module IDiscountStrategy.
Record t : Type := { compute : double -> double }.
End IDiscountStrategy.

Module PercentOff.
Definition compute (percent : double) (subtotal : double) : double :=
  (subtotal * (percent / of_int 100))%D.

Definition make (p : double) : IDiscountStrategy.t :=
  {| IDiscountStrategy.compute := compute p |}.
End PercentOff.

Module FlatOff.
(** The member [amount] is an [int]; [compute] converts it to [double]. *)
Definition compute (amount : Z) (_ : double) : double := of_int amount.

Definition make (a : Z) : IDiscountStrategy.t :=
  {| IDiscountStrategy.compute := compute a |}.
End FlatOff.

(** ** Tax rules *)

Module ITaxRule.
Record t : Type := { compute : double -> double }.
End ITaxRule.

Module GST18.
(** The literal [0.18]. *)
Definition rate : double := of_ratio 18 100.

Definition compute (base : double) : double := (base * rate)%D.

Definition make : ITaxRule.t := {| ITaxRule.compute := compute |}.
End GST18.

(** ** Renderers *)

Module IInvoiceRenderer.
Record t : Type := {
  render : list LineItem -> double -> double -> double -> double -> string
}.
End IInvoiceRenderer.

Module SimpleTextRenderer.
Import Format.
Local Open Scope stream_scope.
Local Open Scope string_scope.

Definition render (items : list LineItem)
           (subtotal discount tax grand : double) : string :=
  let out : ostream := EmptyString in
  let out := out << "INVOICE" ++ nl in
  let out :=
    fold_left
      (fun out it =>
         out << sku it << " x" << show_int (quantity it) << " @ "
             << show_double (unitPrice it) << nl)
      items out in
  let out := out << "Subtotal: " << show_double subtotal << nl in
  let out := out << "Discounts: " << show_double discount << nl in
  let out := out << "Tax: " << show_double tax << nl in
  let out := out << "Total: " << show_double grand << nl in
  out.

Definition make : IInvoiceRenderer.t := {| IInvoiceRenderer.render := render |}.
End SimpleTextRenderer.

(** ** Collaborators with side effects

    [send] and [log] return nothing and act on the outside world; the
    world is threaded explicitly and its type is left open, so that the
    console implementations of the program and recording fakes are both
    instances. *)

Module IEmailService.
Record t (World : Type) : Type := { send : string -> string -> World -> World }.
Arguments send {World} _ _ _ _.
End IEmailService.

Module ILogger.
Record t (World : Type) : Type := { log : string -> World -> World }.
Arguments log {World} _ _ _.
End ILogger.

Module ConsoleEmailService.
Local Open Scope stream_scope.
Local Open Scope string_scope.

(** The world is [cout]. *)
Definition send (email _content : string) (cout : ostream) : ostream :=
  cout << "[SMTP] Sending invoice to " << email << "..." ++ Format.nl.

Definition make : IEmailService.t ostream := {| IEmailService.send := send |}.
End ConsoleEmailService.

Module ConsoleLogger.
Local Open Scope stream_scope.
Local Open Scope string_scope.

Definition log (msg : string) (cout : ostream) : ostream :=
  cout << "[LOG] " << msg << Format.nl.

Definition make : ILogger.t ostream := {| ILogger.log := log |}.
End ConsoleLogger.

(** ** The invoice service *)

Module InvoiceService.
Local Open Scope string_scope.

Record t (World : Type) : Type := {
  taxRule : ITaxRule.t;
  renderer : IInvoiceRenderer.t;
  emailer : IEmailService.t World;
  logger : ILogger.t World
}.
Arguments taxRule {World} _.
Arguments renderer {World} _.
Arguments emailer {World} _.
Arguments logger {World} _.

(** The local variables of [process]. *)
Record Amounts : Type := {
  subtotal : double;
  discount_total : double;
  tax : double;
  grand : double
}.

(** The arithmetic of [process], up to the computation of [grand]. *)
Definition amounts {World} (svc : t World) (items : list LineItem)
           (discounts : list IDiscountStrategy.t) : Amounts :=
  let subtotal :=
    fold_left (fun subtotal it => (subtotal + unitPrice it * of_int (quantity it))%D)
              items zero in
  let discount_total :=
    fold_left (fun discount_total d =>
                 (discount_total + IDiscountStrategy.compute d subtotal)%D)
              discounts zero in
  let tax := ITaxRule.compute (taxRule svc) (subtotal - discount_total)%D in
  let grand := (subtotal - discount_total + tax)%D in
  {| subtotal := subtotal; discount_total := discount_total;
     tax := tax; grand := grand |}.

Definition audit_message (email : string) (grand : double) : string :=
  "Invoice processed for " ++ email ++ " total=" ++ Format.to_string grand.

(** [process]: the returned text and the world after the call. *)
Definition process {World} (svc : t World) (items : list LineItem)
           (discounts : list IDiscountStrategy.t) (email : string)
           (w : World) : string * World :=
  let a := amounts svc items discounts in
  let content :=
    IInvoiceRenderer.render (renderer svc) items
      (subtotal a) (discount_total a) (tax a) (grand a) in
  let w := if String.eqb email EmptyString then w
           else IEmailService.send (emailer svc) email content w in
  let w := ILogger.log (logger svc) (audit_message email (grand a)) w in
  (content, w).

End InvoiceService.

(** ** The demonstration entry point *)

Module Main.
Local Open Scope string_scope.
Local Open Scope stream_scope.

Definition items : list LineItem :=
  [ {| sku := "ITEM-001"; quantity := 3; unitPrice := of_int 100 |};
    {| sku := "ITEM-002"; quantity := 1; unitPrice := of_int 250 |} ].

Definition discounts : list IDiscountStrategy.t := [ PercentOff.make (of_int 10) ].

Definition svc : InvoiceService.t ostream :=
  {| InvoiceService.taxRule := GST18.make;
     InvoiceService.renderer := SimpleTextRenderer.make;
     InvoiceService.emailer := ConsoleEmailService.make;
     InvoiceService.logger := ConsoleLogger.make |}.

Definition main (cout : ostream) : ostream :=
  let '(text, cout) :=
    InvoiceService.process svc items discounts "customer@example.com" cout in
  cout << text.
End Main.

(** ** Recording collaborators

    Fakes that only record the calls they receive, in order. *)

Module Recording.
Inductive Call : Type :=
| Send (email content : string)
| Log (msg : string).

Definition World : Type := list Call.

Definition emailer : IEmailService.t World :=
  {| IEmailService.send := fun email content w => w ++ [Send email content] |}.

Definition logger : ILogger.t World :=
  {| ILogger.log := fun msg w => w ++ [Log msg] |}.

Definition svc (t : ITaxRule.t) (r : IInvoiceRenderer.t) : InvoiceService.t World :=
  {| InvoiceService.taxRule := t;
     InvoiceService.renderer := r;
     InvoiceService.emailer := emailer;
     InvoiceService.logger := logger |}.

Definition is_send (c : Call) : bool :=
  match c with Send _ _ => true | Log _ => false end.

Definition is_log (c : Call) : bool :=
  match c with Log _ => true | Send _ _ => false end.

(** Replaying recorded calls on real collaborators. *)
Definition replay {W} (e : IEmailService.t W) (l : ILogger.t W)
           (calls : list Call) (w : W) : W :=
  fold_left
    (fun w c =>
       match c with
       | Send email content => IEmailService.send e email content w
       | Log msg => ILogger.log l msg w
       end)
    calls w.
End Recording.

(** ** Vocabulary of the specification *)

(** The sum of a sequence of doubles, accumulated from [0.0] in
    sequence order. *)
Definition dsum (l : list double) : double := fold_left add l zero.

(** What each discount strategy contributes: its [compute] applied to
    the subtotal of the items. *)
Definition contributions (subtotal : double) (ds : list IDiscountStrategy.t)
  : list double :=
  map (fun d => IDiscountStrategy.compute d subtotal) ds.

(** The extended price of a line item, in the order of the
    specification: quantity times unit price. *)
Definition extended_price (it : LineItem) : double :=
  (of_int (quantity it) * unitPrice it)%D.

(** A text made of lines, each ended by a newline. *)
Definition unlines (ls : list string) : string :=
  String.concat EmptyString (map (fun l => (l ++ Format.nl)%string) ls).

Definition item_line (it : LineItem) : string :=
  (sku it ++ " x" ++ Format.show_int (quantity it) ++ " @ "
     ++ Format.show_double (unitPrice it))%string.

Definition summary_lines (subtotal discount tax grand : double) : list string :=
  [ ("Subtotal: " ++ Format.show_double subtotal)%string;
    ("Discounts: " ++ Format.show_double discount)%string;
    ("Tax: " ++ Format.show_double tax)%string;
    ("Total: " ++ Format.show_double grand)%string ].

(** The scenario with a flat discount larger than the subtotal. *)
Definition over_discounted_items : list LineItem :=
  [ {| sku := "ITEM-001"; quantity := 1; unitPrice := of_int 100 |} ].

(** ** Vocabulary for the floating-point facts *)

(** [x] is not a NaN and carries the sign [s]. *)
Definition has_sign (s : bool) (x : double) : Prop :=
  match x with
  | S754_nan => False
  | S754_zero s' | S754_infinity s' | S754_finite s' _ _ => s' = s
  end.

(** The canonical form of a positive integer of at most 53 bits: the
    mantissa is the integer shifted left to 53 bits. *)
Definition canonical_int (s : bool) (p : positive) : double :=
  let d := Z.pos (digits2_pos p) in
  S754_finite s (fst (shl_align p 0 (d - prec))) (d - prec).

(** The integer part of a double (truncation toward zero), as the
    conversion from [double] to an integer type takes it. *)
Definition trunc (x : double) : Z :=
  match x with
  | S754_finite s m e =>
      cond_Zopp s (if 0 <=? e then Z.pos m * 2 ^ e else Z.pos m / 2 ^ (- e))
  | _ => 0
  end.

(** * Media players (02-media-lsp-isp-perfect-10-10.cpp)

    Two players behind small capability interfaces.  An object is the
    record of its fields; a method that returns nothing returns the
    object after the call. *)

Module Media.

Module AudioPlayer.
Record t : Type := { playing : bool }.

Definition init : t := {| playing := false |}.

Definition play (_src : string) (_ : t) : t := {| playing := true |}.

Definition pause (_ : t) : t := {| playing := false |}.

Definition download (_url : string) (p : t) : t := p.

Definition isPlaying (p : t) : bool := playing p.

(** The calls a client can make, for sequences of calls. *)
Inductive Op : Type :=
| Play (src : string)
| Pause
| Download (url : string).

Definition step (p : t) (o : Op) : t :=
  match o with
  | Play src => play src p
  | Pause => pause p
  | Download url => download url p
  end.

Definition run (ops : list Op) (p : t) : t := fold_left step ops p.

(** The last [Play] or [Pause] of a sequence of calls, if any. *)
Fixpoint last_control (ops : list Op) : option bool :=
  match ops with
  | [] => None
  | o :: ops' =>
      match last_control ops' with
      | Some b => Some b
      | None =>
          match o with
          | Play _ => Some true
          | Pause => Some false
          | Download _ => None
          end
      end
  end.
End AudioPlayer.

Module LiveStreamPlayer.
Inductive State : Type := Idle | Preparing | Streaming | Playing.

Record t : Type := { state : State; playing : bool }.

Definition init : t := {| state := Idle; playing := false |}.

Definition initializeStream (_src : string) (p : t) : t :=
  {| state := Streaming; playing := playing p |}.

(** The body of [case State::Streaming], which [case State::Idle]
    falls through to. *)
Definition play_streaming (p : t) : t :=
  let p := {| state := state p; playing := true |} in
  {| state := Playing; playing := playing p |}.

Definition play (src : string) (p : t) : t :=
  match state p with
  | Idle =>
      let p := {| state := Preparing; playing := playing p |} in
      let p := initializeStream src p in
      play_streaming p
  | Streaming => play_streaming p
  | Playing => p
  | Preparing =>
      let p := initializeStream src p in
      let p := {| state := state p; playing := true |} in
      {| state := Playing; playing := playing p |}
  end.

Definition is_playing_state (s : State) : bool :=
  match s with Playing => true | _ => false end.

Definition pause (p : t) : t :=
  let p := {| state := state p; playing := false |} in
  if is_playing_state (state p)
  then {| state := Streaming; playing := playing p |}
  else p.

Definition record (_dest : string) (p : t) : t := p.

Definition isPlaying (p : t) : bool := playing p.

Inductive Op : Type :=
| InitializeStream (src : string)
| Play (src : string)
| Pause
| Record (dest : string).

Definition step (p : t) (o : Op) : t :=
  match o with
  | InitializeStream src => initializeStream src p
  | Play src => play src p
  | Pause => pause p
  | Record dest => record dest p
  end.

Definition run (ops : list Op) (p : t) : t := fold_left step ops p.

(** The calls that bring a stream up. *)
Definition starts_stream (o : Op) : bool :=
  match o with InitializeStream _ | Play _ => true | Pause | Record _ => false end.

(** What holds of a player between calls. *)
Definition invariant (p : t) : Prop :=
  state p <> Preparing
  /\ (state p = Playing -> playing p = true)
  /\ (state p = Idle -> playing p = false).
End LiveStreamPlayer.

(** [cout << bool] without [boolalpha]. *)
Definition show_bool (b : bool) : string := if b then "1"%string else "0"%string.

Definition main (cout : ostream) : ostream :=
  let ap := AudioPlayer.init in
  let ap := AudioPlayer.play "song.mp3" ap in
  let cout := (cout << "Audio playing: " << show_bool (AudioPlayer.isPlaying ap)
                    << Format.nl)%stream in
  let ap := AudioPlayer.pause ap in
  let cam := LiveStreamPlayer.init in
  let cam := LiveStreamPlayer.play "rtsp://cam" cam in
  let cout := (cout << "Camera playing: " << show_bool (LiveStreamPlayer.isPlaying cam)
                    << Format.nl)%stream in
  cout.

End Media.

(** * Media players with an explicit live stream (02-media-lsp-isp.cpp)

    In this version [LiveStreamPlayer::play] throws when the stream was
    not started.  A call that can throw returns either the object after
    the call or the message of the exception; nothing is assigned
    before the [throw], so the object is then as it was. *)

Module MediaSolved.

Module AudioPlayer.
Record t : Type := { playing : bool }.

Definition init : t := {| playing := false |}.
Definition play (_src : string) (_ : t) : t := {| playing := true |}.
Definition pause (_ : t) : t := {| playing := false |}.
Definition download (_url : string) (p : t) : t := p.
Definition isPlaying (p : t) : bool := playing p.
End AudioPlayer.

Module LiveStreamPlayer.
Record t : Type := { live : bool; playing : bool }.

Definition init : t := {| live := false; playing := false |}.

Definition startStream (_url : string) (p : t) : t :=
  {| live := true; playing := playing p |}.

Definition isLive (p : t) : bool := live p.

(** [inr msg] is [throw runtime_error(msg)]. *)
Definition play (_src : string) (p : t) : t + string :=
  if negb (live p)
  then inr "Must start live stream before play()!"%string
  else inl {| live := live p; playing := true |}.

Definition pause (p : t) : t := {| live := live p; playing := false |}.

Definition record (_dest : string) (p : t) : t := p.

Definition isPlaying (p : t) : bool := playing p.

Inductive Op : Type :=
| StartStream (url : string)
| Play (src : string)
| Pause
| Record (dest : string).

Definition step (p : t) (o : Op) : t + string :=
  match o with
  | StartStream url => inl (startStream url p)
  | Play src => play src p
  | Pause => inl (pause p)
  | Record dest => inl (record dest p)
  end.

(** A sequence of calls; an exception ends it. *)
Fixpoint run (ops : list Op) (p : t) : t + string :=
  match ops with
  | [] => inl p
  | o :: ops' =>
      match step p o with
      | inl p' => run ops' p'
      | inr msg => inr msg
      end
  end.

Definition is_start (o : Op) : bool :=
  match o with StartStream _ => true | _ => false end.

Definition is_play (o : Op) : bool :=
  match o with Play _ => true | _ => false end.

(** Some [play] comes before every [startStream]. *)
Fixpoint play_before_start (ops : list Op) : bool :=
  match ops with
  | [] => false
  | o :: ops' =>
      if is_play o then true
      else if is_start o then false
      else play_before_start ops'
  end.
End LiveStreamPlayer.

(** [cout << boolalpha << bool] *)
Definition show_bool (b : bool) : string := if b then "true"%string else "false"%string.

(** [main]; [inr] when an exception leaves it. *)
Definition main (cout : ostream) : ostream + string :=
  let ap := AudioPlayer.init in
  let ap := AudioPlayer.play "song.mp3" ap in
  let cout := (cout << "Audio playing: " << show_bool (AudioPlayer.isPlaying ap)
                    << Format.nl)%stream in
  let ap := AudioPlayer.pause ap in
  let cam := LiveStreamPlayer.init in
  let cam := LiveStreamPlayer.startStream "rtsp://camera" cam in
  match LiveStreamPlayer.play "rtsp://camera" cam with
  | inr msg => inr msg
  | inl cam =>
      inl (cout << "Camera playing: " << show_bool (LiveStreamPlayer.isPlaying cam)
                << Format.nl)%stream
  end.

End MediaSolved.

(** * Sign-up notifications (03-notify-dip-ocp.cpp)

    As for the invoice service, the methods that return nothing act on
    a world that is threaded through the calls. *)

Module Notify.

Module IEmailService.
Record t (World : Type) : Type :=
  { sendEmail : string -> string -> string -> World -> World }.
Arguments sendEmail {World} _ _ _ _ _.
End IEmailService.

Module ISmsService.
Record t (World : Type) : Type := { sendSMS : string -> string -> World -> World }.
Arguments sendSMS {World} _ _ _ _.
End ISmsService.

Module SmtpMailer.
Definition sendEmail (templ to body : string) (cout : ostream) : ostream :=
  (cout << "[SMTP] template=" << templ << " to=" << to << " body=" << body
        << Format.nl)%stream.

Definition make : IEmailService.t ostream := {| IEmailService.sendEmail := sendEmail |}.
End SmtpMailer.

Module TwilioClient.
Definition sendSMS (phone message : string) (cout : ostream) : ostream :=
  (cout << "[Twilio] OTP " << message << " -> " << phone << Format.nl)%stream.

Definition make : ISmsService.t ostream := {| ISmsService.sendSMS := sendSMS |}.
End TwilioClient.

Record User : Type := { email : string; phone : string }.

Module INotifier.
Record t (World : Type) : Type := { notify : User -> World -> World }.
Arguments notify {World} _ _ _.
End INotifier.

Module WelcomeEmailNotifier.
Definition notify {World} (svc : IEmailService.t World) (u : User) (w : World) : World :=
  IEmailService.sendEmail svc "welcome" (email u) "Welcome!" w.

Definition make {World} (svc : IEmailService.t World) : INotifier.t World :=
  {| INotifier.notify := notify svc |}.
End WelcomeEmailNotifier.

Module OTPNotifier.
Definition notify {World} (svc : ISmsService.t World) (u : User) (w : World) : World :=
  ISmsService.sendSMS svc (phone u) "123456" w.

Definition make {World} (svc : ISmsService.t World) : INotifier.t World :=
  {| INotifier.notify := notify svc |}.
End OTPNotifier.

Module CompositeNotifier.
(** The vector of notifiers, in the order of [push_back]. *)
Record t (World : Type) : Type := { notifiers : list (INotifier.t World) }.
Arguments notifiers {World} _.

Definition init {World} : t World := {| notifiers := [] |}.

Definition add {World} (notifier : INotifier.t World) (c : t World) : t World :=
  {| notifiers := notifiers c ++ [notifier] |}.

Definition notify {World} (c : t World) (u : User) (w : World) : World :=
  fold_left (fun w n => INotifier.notify n u w) (notifiers c) w.

Definition make {World} (c : t World) : INotifier.t World :=
  {| INotifier.notify := notify c |}.
End CompositeNotifier.

Module SignUpService.
Record t (World : Type) : Type := { notifier : INotifier.t World }.
Arguments notifier {World} _.

Definition signUp {World} (svc : t World) (u : User) (w : World) : bool * World :=
  if String.eqb (email u) EmptyString then (false, w)
  else
    let w := INotifier.notify (notifier svc) u w in
    (true, w).
End SignUpService.

(** The composition root of [main], over any two services. *)
Definition composition_root {World} (smtp : IEmailService.t World)
           (twilio : ISmsService.t World) : SignUpService.t World :=
  let welcomeEmail := WelcomeEmailNotifier.make smtp in
  let otp := OTPNotifier.make twilio in
  let composite := CompositeNotifier.init in
  let composite := CompositeNotifier.add welcomeEmail composite in
  let composite := CompositeNotifier.add otp composite in
  {| SignUpService.notifier := CompositeNotifier.make composite |}.

Definition main (cout : ostream) : ostream :=
  let svc := composition_root SmtpMailer.make TwilioClient.make in
  let user := {| email := "user@example.com"; phone := "+15550001111" |} in
  snd (SignUpService.signUp svc user cout).

(** Services that record their calls. *)
Inductive Call : Type :=
| Email (templ to body : string)
| Sms (phone message : string).

Definition recording_mailer : IEmailService.t (list Call) :=
  {| IEmailService.sendEmail := fun templ to body w => w ++ [Email templ to body] |}.

Definition recording_sms : ISmsService.t (list Call) :=
  {| ISmsService.sendSMS := fun phone message w => w ++ [Sms phone message] |}.

End Notify.

(** ** Vocabulary for the invoice texts and scenarios *)

Definition is_digit (c : ascii) : bool :=
  (48 <=? nat_of_ascii c)%nat && (nat_of_ascii c <=? 57)%nat.

Fixpoint all_digits (s : string) : bool :=
  match s with
  | EmptyString => true
  | String c s' => is_digit c && all_digits s'
  end.

(** Ten items at [1e308] each: the subtotal overflows. *)
Definition overflow_items : list LineItem :=
  [ {| sku := "ITEM-001"; quantity := 10; unitPrice := of_int (10 ^ 308) |} ].

(** Three items priced 0.10, 0.20 and 0.30. *)
Definition cents_items : list LineItem :=
  [ {| sku := "A"; quantity := 1; unitPrice := of_ratio 1 10 |};
    {| sku := "B"; quantity := 1; unitPrice := of_ratio 2 10 |};
    {| sku := "C"; quantity := 1; unitPrice := of_ratio 3 10 |} ].

(** The service of [main], over any collaborators. *)
Definition gst_text_service {World} (e : IEmailService.t World) (l : ILogger.t World)
  : InvoiceService.t World :=
  {| InvoiceService.taxRule := GST18.make;
     InvoiceService.renderer := SimpleTextRenderer.make;
     InvoiceService.emailer := e;
     InvoiceService.logger := l |}.

(** ** Vocabulary for whole-number invoices *)

(** The double that holds the integer [z] exactly, for an integer of at
    most 53 bits. *)
Definition exact_int (z : Z) : double :=
  match z with
  | Z0 => zero
  | Z.pos p => canonical_int false p
  | Z.neg p => canonical_int true p
  end.

(** An item whose quantity is an [int] and whose unit price is a whole
    number below [2^53]. *)
Definition whole_item (it : LineItem) : Prop :=
  int_range (quantity it)
  /\ Z.abs (trunc (unitPrice it)) < 2 ^ 53
  /\ unitPrice it = of_int (trunc (unitPrice it)).

(** Its extended price, as an integer. *)
Definition whole_amount (it : LineItem) : Z := quantity it * trunc (unitPrice it).

Definition zsum (l : list Z) : Z := fold_right Z.add 0 l.

(** The number of newline characters of a text. *)
Fixpoint count_nl (s : string) : nat :=
  match s with
  | EmptyString => O
  | String c s' => ((if Ascii.eqb c (ascii_of_nat 10) then 1 else 0) + count_nl s')%nat
  end.

(** ** The text of a NaN

    The doubles of the model carry no NaN sign and [Format] writes every
    NaN as [nan]; the program writes [nan] or [-nan], by the sign bit
    of the NaN at hand (the NaN that 0 times infinity or infinity minus
    infinity produce is written [-nan]).  The statements about texts
    therefore go through the two relations below, which leave the sign
    of a NaN open and are exact on every other value. *)

(** [v] is a text that [std::to_string] gives for [x]. *)
Definition to_string_text (x : double) (v : string) : Prop :=
  match x with
  | S754_nan => v = "nan"%string \/ v = "-nan"%string
  | _ => v = Format.to_string x
  end.

(** [v] is a text that [out << x] writes for [x]. *)
Definition stream_text (x : double) (v : string) : Prop :=
  match x with
  | S754_nan => v = "nan"%string \/ v = "-nan"%string
  | _ => v = Format.show_double x
  end.

(** A text made of an optional minus sign, at least one digit, a point
    and exactly six digits. *)
Definition has_six_decimals (v : string) : Prop :=
  exists (s : bool) (int_part frac : string),
    v = (Format.sign_str s ++ int_part ++ "." ++ frac)%string
    /\ all_digits int_part = true
    /\ int_part <> EmptyString
    /\ String.length frac = 6%nat
    /\ all_digits frac = true.

(** The line of an item for the number text [v]. *)
Definition item_line_with (it : LineItem) (v : string) : string :=
  (sku it ++ " x" ++ Format.show_int (quantity it) ++ " @ " ++ v)%string.

(** One item whose SKU holds a newline. *)
Definition newline_sku_items : list LineItem :=
  [ {| sku := "A" ++ Format.nl ++ "B"; quantity := 1; unitPrice := of_int 100 |} ].

(** * Properties *)

(** ** The constants of the program *)

Example of_int_100 : of_int 100 = S754_finite false 7036874417766400 (-46).
Proof. reflexivity. Qed.

Example lit_0_18 : of_ratio 18 100 = S754_finite false 6485183463413514 (-55).
Proof. reflexivity. Qed.

Import InvoiceService.

(** ** Floating-point arithmetic *)

Lemma mul_comm (x y : double) : mul x y = mul y x.
Proof.
  unfold mul.
  destruct x as [sx|sx| |sx mx ex], y as [sy|sy| |sy my ey]; simpl;
    try reflexivity; try (now rewrite (xorb_comm sx sy)).
  now rewrite (xorb_comm sx sy), (Pos.mul_comm mx my), (Z.add_comm ex ey).
Qed.

Lemma add_comm (x y : double) : add x y = add y x.
Proof.
  destruct x as [sx|sx| |sx mx ex], y as [sy|sy| |sy my ey]; try reflexivity;
    try (destruct sx, sy; reflexivity).
  unfold add; simpl. rewrite (Z.min_comm ey ex). f_equal. apply Z.add_comm.
Qed.

(** Rounding keeps the sign and never produces a NaN. *)

Lemma shr_1_nonneg mrs : 0 <= shr_m mrs -> 0 <= shr_m (shr_1 mrs).
Proof.
  destruct mrs as [m r s]; simpl.
  destruct m as [|p|p]; try destruct p; simpl; lia.
Qed.

Lemma iter_pos_invariant {A} (P : A -> Prop) (f : A -> A) :
  (forall x, P x -> P (f x)) -> forall p x, P x -> P (iter_pos f p x).
Proof.
  intros Hf p; induction p as [p IH|p IH|]; intros x Hx; simpl; auto.
Qed.

Lemma shr_nonneg mrs e n : 0 <= shr_m mrs -> 0 <= shr_m (fst (shr mrs e n)).
Proof.
  intro H. destruct n; simpl; trivial.
  now apply (iter_pos_invariant (fun r => 0 <= shr_m r)); [apply shr_1_nonneg|].
Qed.

Lemma shr_fexp_nonneg m e l :
  0 <= m -> 0 <= shr_m (fst (shr_fexp prec emax m e l)).
Proof.
  intro H. unfold shr_fexp. apply shr_nonneg.
  destruct l as [|[]]; simpl; exact H.
Qed.

Lemma round_nearest_even_nonneg m l : 0 <= m -> 0 <= round_nearest_even m l.
Proof.
  intro H. destruct l as [|[]]; simpl; try lia.
  destruct (Z.even m); lia.
Qed.

Lemma binary_round_aux_sign s m e l :
  0 <= m -> has_sign s (binary_round_aux prec emax s m e l).
Proof.
  intro H. unfold binary_round_aux.
  destruct (shr_fexp prec emax m e l) as [mrs' e'] eqn:E1.
  destruct (shr_fexp prec emax (round_nearest_even (shr_m mrs') (loc_of_shr_record mrs')) e' loc_Exact)
    as [mrs'' e''] eqn:E2.
  assert (H1 : 0 <= shr_m mrs').
  { change mrs' with (fst (mrs', e')). rewrite <- E1. now apply shr_fexp_nonneg. }
  assert (H2 : 0 <= shr_m mrs'').
  { change mrs'' with (fst (mrs'', e'')). rewrite <- E2.
    apply shr_fexp_nonneg. now apply round_nearest_even_nonneg. }
  destruct (shr_m mrs'') as [|p|p]; simpl.
  - reflexivity.
  - destruct (e'' <=? _); simpl; reflexivity.
  - lia.
Qed.

Lemma mul_sign (x y : double) :
  is_nan (mul x y) = false -> signbit (mul x y) = xorb (signbit x) (signbit y).
Proof.
  destruct x as [sx|sx| |sx mx ex], y as [sy|sy| |sy my ey]; simpl;
    try reflexivity; try discriminate.
  intros _. unfold mul; simpl.
  pose proof (binary_round_aux_sign (xorb sx sy) (Z.pos (mx * my)) (ex + ey) loc_Exact) as H.
  destruct (binary_round_aux prec emax (xorb sx sy) (Z.pos (mx * my)) (ex + ey) loc_Exact);
    simpl in *; try (apply H; lia). elim H. lia.
Qed.

(** Conversion of integers *)

Lemma digits2_pos_iter_xO (p : positive) (k : positive) :
  Z.pos (digits2_pos (Pos.iter xO p k)) = Z.pos (digits2_pos p) + Z.pos k.
Proof.
  induction k as [|k IH] using Pos.peano_ind.
  - simpl. lia.
  - rewrite Pos.iter_succ. simpl. lia.
Qed.

Lemma binary_round_small s (p : positive) :
  Z.pos (digits2_pos p) <= prec ->
  binary_round prec emax s p 0 = canonical_int s p.
Proof.
  intro Hd. unfold binary_round, canonical_int.
  remember (Z.pos (digits2_pos p)) as d eqn:Hdd.
  assert (Hf : fexp prec emax (d + 0) = d - prec).
  { unfold fexp, emin, prec, emax in *. lia. }
  rewrite Hf.
  destruct (shl_align p 0 (d - prec)) as [mz ez] eqn:E.
  assert (Hmz : Z.pos (digits2_pos mz) = prec /\ ez = d - prec).
  { unfold shl_align in E. 
    destruct (d - prec - 0) as [|k|k] eqn:Ek.
    - injection E as <- <-. lia.
    - lia.
    - injection E as <- <-. rewrite digits2_pos_iter_xO. lia. }
  destruct Hmz as [Hmz Hez].
  unfold binary_round_aux.
  assert (Hs : forall l, shr_fexp prec emax (Z.pos mz) ez l = (shr_record_of_loc (Z.pos mz) l, ez)).
  { intro l. unfold shr_fexp. simpl Zdigits2. rewrite Hmz.
    replace (fexp prec emax (prec + ez) - ez) with 0; [reflexivity|].
    unfold fexp, emin, prec, emax in *. lia. }
  rewrite Hs. simpl. rewrite Hs. simpl.
  replace (ez <=? _) with true; [simpl; congruence|].
  symmetry. apply Z.leb_le. unfold prec, emax in *. lia.
Qed.

Lemma of_int_pos (p : positive) :
  Z.pos (digits2_pos p) <= prec -> of_int (Z.pos p) = canonical_int false p.
Proof. apply binary_round_small. Qed.

Lemma of_int_neg (p : positive) :
  Z.pos (digits2_pos p) <= prec -> of_int (Z.neg p) = canonical_int true p.
Proof. apply binary_round_small. Qed.

Lemma digits2_pos_lt (p : positive) : Z.pos p < 2 ^ Z.pos (digits2_pos p).
Proof.
  induction p as [p IH|p IH|]; simpl digits2_pos.
  - rewrite Pos2Z.inj_succ, Z.pow_succ_r by lia. lia.
  - rewrite Pos2Z.inj_succ, Z.pow_succ_r by lia. lia.
  - reflexivity.
Qed.

Lemma digits2_pos_le (p : positive) : 2 ^ (Z.pos (digits2_pos p) - 1) <= Z.pos p.
Proof.
  induction p as [p IH|p IH|]; simpl digits2_pos.
  - rewrite Pos2Z.inj_succ. replace (Z.succ (Z.pos (digits2_pos p)) - 1) with (Z.succ (Z.pos (digits2_pos p) - 1)) by lia.
    rewrite Z.pow_succ_r by lia. lia.
  - rewrite Pos2Z.inj_succ. replace (Z.succ (Z.pos (digits2_pos p)) - 1) with (Z.succ (Z.pos (digits2_pos p) - 1)) by lia.
    rewrite Z.pow_succ_r by lia. lia.
  - simpl. lia.
Qed.

Lemma digits2_pos_bound (p : positive) (k : Z) :
  0 <= k -> Z.pos p < 2 ^ k -> Z.pos (digits2_pos p) <= k.
Proof.
  intros Hk Hp.
  destruct (Z_le_gt_dec (Z.pos (digits2_pos p)) k) as [H|H]; [exact H|].
  exfalso. pose proof (digits2_pos_le p) as Hle.
  assert (2 ^ k <= 2 ^ (Z.pos (digits2_pos p) - 1)) by (apply Z.pow_le_mono_r; lia).
  lia.
Qed.

Lemma int_digits (p : positive) :
  Z.pos p <= 2147483648 -> Z.pos (digits2_pos p) <= 32.
Proof. intro H. apply digits2_pos_bound; lia. Qed.

(** Every int converts to zero or to a double of exponent at least -52. *)
Lemma of_int_exponent (z : Z) :
  int_range z ->
  match of_int z with
  | S754_zero _ => z = 0
  | S754_finite s m e => -52 <= e /\ s = (z <? 0)
  | _ => False
  end.
Proof.
  intros [Hlo Hhi]. destruct z as [|p|p].
  - reflexivity.
  - rewrite of_int_pos by (pose proof (int_digits p); unfold prec; lia).
    unfold canonical_int. split; [|reflexivity]. unfold prec; lia.
  - rewrite of_int_neg by (pose proof (int_digits p); unfold prec; lia).
    unfold canonical_int. split; [|reflexivity]. unfold prec; lia.
Qed.

(** ** Helper lemmas on folds and texts *)

Lemma fold_left_add_map {A} (f : A -> double) (l : list A) (acc : double) :
  fold_left (fun acc x => (acc + f x)%D) l acc = fold_left add (map f l) acc.
Proof.
  revert acc; induction l as [|x l IH]; intro acc; simpl.
  - reflexivity.
  - apply IH.
Qed.

Lemma subtotal_amounts {W} (svc : InvoiceService.t W) items ds :
  subtotal (amounts svc items ds) =
  fold_left (fun acc it => (acc + unitPrice it * of_int (quantity it))%D) items zero.
Proof. reflexivity. Qed.

Lemma discount_total_amounts {W} (svc : InvoiceService.t W) items ds :
  discount_total (amounts svc items ds) =
  dsum (contributions (subtotal (amounts svc items ds)) ds).
Proof.
  unfold amounts, dsum, contributions; simpl.
  apply fold_left_add_map.
Qed.

Lemma dsum_snoc (l : list double) (x : double) :
  dsum (l ++ [x]) = (dsum l + x)%D.
Proof. unfold dsum. rewrite fold_left_app. reflexivity. Qed.

(** C1: [process] computes the discount total as the sum, in sequence
    order, of each strategy's [compute] applied to the subtotal of the
    items, never to a remainder; appending a strategy leaves the
    subtotal and the contributions of the strategies before it
    unchanged and adds its own contribution on the original subtotal. *)
Theorem discount_total_additive :
  forall (W : Type) (svc : InvoiceService.t W) (items : list LineItem)
         (ds : list IDiscountStrategy.t) (d' : IDiscountStrategy.t),
    let s := subtotal (amounts svc items ds) in
    discount_total (amounts svc items ds) = dsum (contributions s ds)
    /\ subtotal (amounts svc items (ds ++ [d'])) = s
    /\ contributions s (ds ++ [d'])
       = contributions s ds ++ [IDiscountStrategy.compute d' s]
    /\ discount_total (amounts svc items (ds ++ [d']))
       = (discount_total (amounts svc items ds) + IDiscountStrategy.compute d' s)%D.
Proof.
  intros W svc items ds d' s.
  split; [apply discount_total_amounts|].
  split; [reflexivity|].
  split.
  - unfold contributions. rewrite map_app. reflexivity.
  - rewrite !discount_total_amounts.
    change (subtotal (amounts svc items (ds ++ [d']))) with s.
    change (subtotal (amounts svc items ds)) with s.
    unfold contributions. rewrite map_app. simpl.
    apply dsum_snoc.
Qed.

(** ** Totals *)

Lemma over_discounted_amounts {W} (svc : InvoiceService.t W) :
  taxRule svc = GST18.make ->
  amounts svc over_discounted_items [FlatOff.make 1000]
  = {| subtotal := of_int 100; discount_total := of_int 1000;
       tax := of_int (-162); grand := of_int (-1062) |}.
Proof.
  intro Ht. unfold amounts. rewrite Ht. vm_compute. reflexivity.
Qed.

(** C2: in every call the tax rule receives [subtotal - discount_total]
    as it is (no clamping: the base is negative in the over-discounted
    scenario), [tax] is the rule's result on that base, and
    [grand = subtotal - discount_total + tax]. *)
Theorem total_identity :
  (forall (W : Type) (svc : InvoiceService.t W) (items : list LineItem)
          (ds : list IDiscountStrategy.t),
      let a := amounts svc items ds in
      let taxable_base := (subtotal a - discount_total a)%D in
      tax a = ITaxRule.compute (taxRule svc) taxable_base
      /\ grand a = (subtotal a - discount_total a + tax a)%D
      /\ grand a = (taxable_base + tax a)%D)
  /\ (exists (items : list LineItem) (ds : list IDiscountStrategy.t),
        let a := amounts (Recording.svc GST18.make SimpleTextRenderer.make) items ds in
        ltb (subtotal a) (discount_total a) = true
        /\ ltb (subtotal a - discount_total a)%D zero = true
        /\ ltb (tax a) zero = true
        /\ ltb (grand a) zero = true).
Proof.
  split.
  - intros W svc items ds a taxable_base. repeat split; reflexivity.
  - exists over_discounted_items, [FlatOff.make 1000].
    rewrite over_discounted_amounts by reflexivity.
    repeat split; vm_compute; reflexivity.
Qed.

(** C9: with a subtotal of 100 and the single discount [FlatOff(1000)],
    under the 18% rule, the discount total is 1000, the taxable base
    -900, the tax -162 and the grand total -1062, exactly. *)
Theorem flat_1000_on_100 :
  forall (W : Type) (svc : InvoiceService.t W) (items : list LineItem),
    taxRule svc = GST18.make ->
    subtotal (amounts svc items [FlatOff.make 1000]) = of_int 100 ->
    let a := amounts svc items [FlatOff.make 1000] in
    discount_total a = of_int 1000
    /\ (subtotal a - discount_total a)%D = of_int (-900)
    /\ tax a = of_int (-162)
    /\ grand a = of_int (-1062).
Proof.
  intros W svc items Ht Hs a.
  assert (Hd : discount_total a = of_int 1000) by reflexivity.
  assert (Hb : (subtotal a - discount_total a)%D = of_int (-900)).
  { rewrite Hd. unfold a. rewrite Hs. vm_compute. reflexivity. }
  assert (Hx : tax a = of_int (-162)).
  { change (tax a) with
      (ITaxRule.compute (taxRule svc) (subtotal a - discount_total a)%D).
    rewrite Hb, Ht. vm_compute. reflexivity. }
  repeat split; try assumption.
  change (grand a) with (subtotal a - discount_total a + tax a)%D.
  rewrite Hb, Hx. vm_compute. reflexivity.
Qed.

Lemma flat_1000_on_100_witness :
  let svc := Recording.svc GST18.make SimpleTextRenderer.make in
  let a := amounts svc over_discounted_items [FlatOff.make 1000] in
  discount_total a = of_int 1000
  /\ (subtotal a - discount_total a)%D = of_int (-900)
  /\ tax a = of_int (-162)
  /\ grand a = of_int (-1062).
Proof.
  apply (flat_1000_on_100 Recording.World
           (Recording.svc GST18.make SimpleTextRenderer.make)
           over_discounted_items); reflexivity.
Defined.

(** ** Texts *)

Lemma string_app_assoc (a b c : string) :
  ((a ++ b) ++ c = a ++ (b ++ c))%string.
Proof. induction a as [|x a IH]; simpl; [reflexivity | now rewrite IH]. Qed.

Lemma string_app_nil_r (a : string) : (a ++ EmptyString = a)%string.
Proof. induction a as [|x a IH]; simpl; [reflexivity | now rewrite IH]. Qed.

Lemma string_app_length (a b : string) :
  String.length (a ++ b) = (String.length a + String.length b)%nat.
Proof. induction a as [|x a IH]; simpl; [reflexivity | now rewrite IH]. Qed.

Lemma unlines_cons (l : string) (ls : list string) :
  unlines (l :: ls) = (l ++ Format.nl ++ unlines ls)%string.
Proof.
  unfold unlines. simpl map.
  destruct (map (fun l0 : string => (l0 ++ Format.nl)%string) ls) as [|y ys] eqn:E.
  - simpl. rewrite ?string_app_nil_r. reflexivity.
  - cbn [concat]. simpl. rewrite ?string_app_assoc. reflexivity.
Qed.

Lemma unlines_app (l1 l2 : list string) :
  unlines (l1 ++ l2) = (unlines l1 ++ unlines l2)%string.
Proof.
  induction l1 as [|x l1 IH].
  - reflexivity.
  - simpl app. rewrite !unlines_cons, IH, !string_app_assoc. reflexivity.
Qed.

Lemma render_items_loop (items : list LineItem) (out : ostream) :
  fold_left
    (fun out it =>
       (out << sku it << " x" << Format.show_int (quantity it) << " @ "
            << Format.show_double (unitPrice it) << Format.nl)%stream)
    items out
  = (out ++ unlines (map item_line items))%string.
Proof.
  revert out; induction items as [|it items IH]; intro out; simpl.
  - unfold unlines; simpl. now rewrite string_app_nil_r.
  - rewrite IH, unlines_cons. unfold put, item_line.
    rewrite !string_app_assoc. reflexivity.
Qed.

Lemma render_layout (items : list LineItem) (s d t g : double) :
  SimpleTextRenderer.render items s d t g
  = unlines ("INVOICE"%string :: map item_line items ++ summary_lines s d t g).
Proof.
  unfold SimpleTextRenderer.render.
  rewrite render_items_loop.
  rewrite unlines_cons, unlines_app.
  unfold summary_lines. rewrite !unlines_cons.
  unfold put, unlines; simpl.
  rewrite !string_app_assoc. simpl. rewrite ?string_app_nil_r. reflexivity.
Qed.

(** ** Side effects *)

Lemma process_replay {W} (svc : InvoiceService.t W) items ds email (w : W) :
  snd (process svc items ds email w)
  = Recording.replay (emailer svc) (logger svc)
      (snd (process (Recording.svc (taxRule svc) (renderer svc)) items ds email []))
      w.
Proof.
  unfold process. cbn [snd].
  destruct (String.eqb email EmptyString); reflexivity.
Qed.

Lemma process_calls t r items ds email :
  let svc := Recording.svc t r in
  snd (process svc items ds email [])
  = (if String.eqb email EmptyString then []
     else [Recording.Send email (fst (process svc items ds email []))])
    ++ [Recording.Log (audit_message email (grand (amounts svc items ds)))].
Proof.
  intro svc. unfold process. cbn [snd fst].
  destruct (String.eqb email EmptyString); reflexivity.
Qed.

Lemma pos_iter_xO_value (p k : positive) :
  Z.pos (Pos.iter xO p k) = Z.pos p * 2 ^ Z.pos k.
Proof.
  induction k as [|k IH] using Pos.peano_ind.
  - simpl. lia.
  - rewrite Pos.iter_succ, Pos2Z.inj_succ, Z.pow_succ_r by lia.
    rewrite Pos2Z.inj_xO, IH. ring.
Qed.

Lemma trunc_canonical_int (s : bool) (p : positive) :
  Z.pos (digits2_pos p) <= prec ->
  trunc (canonical_int s p) = cond_Zopp s (Z.pos p).
Proof.
  intro Hd. unfold canonical_int, trunc, shl_align.
  remember (Z.pos (digits2_pos p)) as d eqn:Hdd.
  destruct (d - prec - 0) as [|k|k] eqn:Ek; cbn [fst].
  - replace (d - prec) with 0 by lia. simpl. f_equal. lia.
  - lia.
  - replace (d - prec) with (Z.neg k) by lia. simpl Z.leb. cbv iota.
    rewrite pos_iter_xO_value. simpl Z.opp.
    rewrite Z.div_mul by (apply Z.pow_nonzero; lia). reflexivity.
Qed.

Lemma trunc_of_int (z : Z) : int_range z -> trunc (of_int z) = z.
Proof.
  intros [Hlo Hhi]. destruct z as [|p|p].
  - reflexivity.
  - rewrite of_int_pos, trunc_canonical_int;
      try (pose proof (int_digits p); unfold prec; lia). reflexivity.
  - rewrite of_int_neg, trunc_canonical_int;
      try (pose proof (int_digits p); unfold prec; lia). reflexivity.
Qed.

(** ** The strategies *)

Lemma rate_value : GST18.rate = S754_finite false 6485183463413514 (-55).
Proof. reflexivity. Qed.

(** C4, as stated, fails: the smallest negative double is a negative
    base whose tax underflows to the zero [-0.0], which is not below
    zero. *)
Lemma gst18_underflow_counterexample :
  let base := S754_finite true 1 (-1074) in
  ltb base zero = true /\ ltb (GST18.compute base) zero = false.
Proof. split; reflexivity. Qed.

(** C4 (amended): for every base, [compute] returns the double product
    of the base and the literal [0.18]; a negative base is not rejected
    and yields a tax with the negative sign: a tax below zero, or the
    zero [-0.0] when the product underflows. *)
Theorem gst18_compute_spec :
  forall base : double,
    GST18.compute base = (base * of_ratio 18 100)%D
    /\ (ltb base zero = true ->
        signbit (GST18.compute base) = true
        /\ (ltb (GST18.compute base) zero = true
            \/ GST18.compute base = S754_zero true)).
Proof.
  intro base. split; [reflexivity|].
  intro Hneg. unfold GST18.compute. rewrite rate_value.
  destruct base as [s|s| |s m e]; try discriminate Hneg.
  - destruct s; [|discriminate Hneg]. split; [reflexivity | left; reflexivity].
  - destruct s; [|discriminate Hneg].
    unfold mul, SFmul. cbn [xorb].
    pose proof (binary_round_aux_sign true
                  (Z.pos (m * 6485183463413514)) (e + -55) loc_Exact) as H.
    destruct (binary_round_aux prec emax true
                (Z.pos (m * 6485183463413514)) (e + -55) loc_Exact)
      as [s'|s'| |s' m' e']; simpl in H.
    + rewrite H by lia. split; [reflexivity | right; reflexivity].
    + rewrite H by lia. split; [reflexivity | left; reflexivity].
    + elim H. lia.
    + rewrite H by lia. split; [reflexivity | left; reflexivity].
Qed.

Lemma gst18_compute_spec_witness :
  ltb (of_int (-900)) zero = true
  /\ signbit (GST18.compute (of_int (-900))) = true
  /\ (ltb (GST18.compute (of_int (-900))) zero = true
      \/ GST18.compute (of_int (-900)) = S754_zero true).
Proof.
  split; [reflexivity|].
  apply (proj2 (gst18_compute_spec (of_int (-900)))). reflexivity.
Defined.

(** C5, as stated, fails: the amount of a [FlatOff] is an [int], so no
    [FlatOff] strategy returns the decimal amount 0.5. *)
Lemma flat_off_decimal_counterexample :
  ~ exists amount : Z,
      int_range amount /\ FlatOff.compute amount zero = of_ratio 1 2.
Proof.
  intros (a & Ha & H). unfold FlatOff.compute in H.
  pose proof (of_int_exponent a Ha) as He. rewrite H in He.
  vm_compute in He. destruct He as [He _]. apply He. reflexivity.
Qed.

(** C5 (amended): for every [int] amount and every subtotal,
    [FlatOff(amount).compute] returns the amount, converted exactly to
    [double], whatever the subtotal; no bound is enforced, so the
    discount can exceed the subtotal. *)
Theorem flat_off_compute_spec :
  (forall (amount : Z) (subtotal subtotal' : double),
      FlatOff.compute amount subtotal = of_int amount
      /\ FlatOff.compute amount subtotal = FlatOff.compute amount subtotal'
      /\ (int_range amount -> trunc (FlatOff.compute amount subtotal) = amount))
  /\ (exists (amount : Z) (subtotal : double),
         int_range amount
         /\ ltb subtotal (FlatOff.compute amount subtotal) = true).
Proof.
  split.
  - intros amount s s'. split; [reflexivity|]. split; [reflexivity|].
    apply trunc_of_int.
  - exists 1000, (of_int 100). split; [unfold int_range; lia | reflexivity].
Qed.

Lemma flat_off_compute_spec_witness :
  int_range 1000 /\ trunc (FlatOff.compute 1000 (of_int 100)) = 1000.
Proof.
  split; [unfold int_range; lia|].
  apply (proj1 flat_off_compute_spec 1000 (of_int 100) zero).
  unfold int_range; lia.
Defined.


(** * Media players *)

Module MediaFacts.
Import Media.

Lemma audio_run_app (ops1 ops2 : list AudioPlayer.Op) (p : AudioPlayer.t) :
  AudioPlayer.run (ops1 ++ ops2) p = AudioPlayer.run ops2 (AudioPlayer.run ops1 p).
Proof. apply fold_left_app. Qed.

(** After any sequence of calls an [AudioPlayer] reports the last
    [play] or [pause] it received, and its initial state when it
    received none: downloads never change what [isPlaying] returns. *)
Theorem audio_is_playing_last_control :
  forall (ops : list AudioPlayer.Op) (p : AudioPlayer.t),
    AudioPlayer.isPlaying (AudioPlayer.run ops p)
    = match AudioPlayer.last_control ops with
      | Some b => b
      | None => AudioPlayer.isPlaying p
      end.
Proof.
  intros ops. induction ops as [|o ops IH]; intro p.
  - reflexivity.
  - change (AudioPlayer.run (o :: ops) p)
      with (AudioPlayer.run ops (AudioPlayer.step p o)).
    rewrite IH. simpl.
    destruct (AudioPlayer.last_control ops) as [b|]; [reflexivity|].
    destruct o; reflexivity.
Qed.

Import LiveStreamPlayer.

Lemma live_invariant_step (p : LiveStreamPlayer.t) (o : Op) :
  invariant p -> invariant (step p o).
Proof.
  intros (Hp & Hpl & Hid). destruct p as [st pl]; simpl in *.
  destruct o as [src|src| |dest]; unfold invariant.
  - simpl. repeat split; discriminate.
  - destruct st; simpl; repeat split; try discriminate; auto.
  - unfold step, pause; simpl. destruct st; simpl; repeat split; try discriminate; auto.
  - simpl. auto.
Qed.

Lemma live_invariant_run (ops : list Op) (p : LiveStreamPlayer.t) :
  invariant p -> invariant (run ops p).
Proof.
  revert p; induction ops as [|o ops IH]; intros p H; [exact H|].
  apply IH, live_invariant_step, H.
Qed.

Lemma live_invariant_init : invariant init.
Proof. repeat split; simpl; try discriminate; auto. Qed.

(** Whatever calls a [LiveStreamPlayer] received before, in whatever
    order, [play] leaves it playing, in state [Playing]: there is no
    call that has to come first. *)
Theorem live_play_always_works :
  forall (ops : list Op) (src : string),
    let p := play src (run ops init) in
    isPlaying p = true /\ state p = Playing.
Proof.
  intros ops src p.
  pose proof (live_invariant_run ops init live_invariant_init) as (Hp & Hpl & _).
  unfold p, play. destruct (run ops init) as [st pl]; simpl in *.
  destruct st; simpl; auto.
Qed.

(** The state [Preparing] is never left behind by a call, and a player
    in state [Playing] reports that it is playing; the converse fails:
    [initializeStream] on a playing stream leaves a player that still
    reports playing while its state is back to [Streaming]. *)
Theorem live_states_between_calls :
  (forall ops : list Op,
      let p := run ops init in
      state p <> Preparing /\ (state p = Playing -> isPlaying p = true))
  /\ (exists ops : list Op,
         let p := run ops init in
         isPlaying p = true /\ state p = Streaming).
Proof.
  split.
  - intros ops p.
    pose proof (live_invariant_run ops init live_invariant_init) as (Hp & Hpl & _).
    split; assumption.
  - exists [Play "rtsp://cam"%string; InitializeStream "rtsp://cam"%string].
    split; reflexivity.
Qed.

(** [pause] always stops playback and never tears the stream down: a
    player that was playing or streaming is in state [Streaming]
    afterwards, an idle one stays idle, and a later [play] resumes. *)
Theorem live_pause_keeps_stream :
  forall (ops : list Op) (src : string),
    let before := run ops init in
    let p := pause before in
    isPlaying p = false
    /\ (state before = Idle -> state p = Idle)
    /\ (state before <> Idle -> state p = Streaming)
    /\ isPlaying (play src p) = true.
Proof.
  intros ops src before p.
  pose proof (live_invariant_run ops init live_invariant_init) as (Hp & Hpl & _).
  fold before in Hp, Hpl. unfold p, pause, play.
  destruct before as [st pl]; simpl in *.
  destruct st; simpl; repeat split; auto; try discriminate; try congruence.
Qed.

Lemma live_pause_keeps_stream_witness :
  let before := run [Play "rtsp://cam"%string] init in
  state before <> Idle /\ state (pause before) = Streaming.
Proof.
  split; [discriminate|].
  apply (live_pause_keeps_stream [Play "rtsp://cam"%string] "rtsp://cam"%string).
  discriminate.
Defined.

(** A player is idle exactly until its first [play] or
    [initializeStream]: [pause] and [record] leave an idle player
    idle, and no call brings a player back to [Idle]. *)
Theorem live_idle_until_first_stream :
  forall ops : list Op,
    state (run ops init) = Idle <-> existsb starts_stream ops = false.
Proof.
  assert (Hstay : forall ops p, state p <> Idle -> state (run ops p) <> Idle).
  { induction ops as [|o ops IH]; intros p H; [exact H|].
    apply IH. destruct p as [st pl]; simpl in *.
    destruct o; simpl; unfold play, pause; simpl;
      destruct st; simpl; try discriminate; congruence. }
  assert (Hgen : forall ops p, state p = Idle ->
                 (state (run ops p) = Idle <-> existsb starts_stream ops = false)).
  { induction ops as [|o ops IH]; intros p Hidle.
    - simpl. tauto.
    - change (run (o :: ops) p) with (run ops (step p o)).
      destruct o as [src|src| |dest]; simpl existsb.
      + split; [|discriminate]. intro H. exfalso.
        apply (Hstay ops (step p (InitializeStream src))); [discriminate | exact H].
      + split; [|discriminate]. intro H. exfalso.
        apply (Hstay ops (step p (Play src))); [|exact H].
        simpl. unfold play. rewrite Hidle. discriminate.
      + apply IH. simpl. unfold pause. simpl. rewrite Hidle. reflexivity.
      + apply IH. exact Hidle. }
  intro ops. apply Hgen. reflexivity.
Qed.

End MediaFacts.

(** * Media players with an explicit live stream *)

Module MediaSolvedFacts.
Import MediaSolved MediaSolved.LiveStreamPlayer.

Lemma run_live (ops : list Op) (p : LiveStreamPlayer.t) :
  live p = true ->
  exists p', run ops p = inl p' /\ live p' = true.
Proof.
  revert p; induction ops as [|o ops IH]; intros p Hl.
  - exists p. split; [reflexivity | exact Hl].
  - destruct o as [url|src| |dest]; simpl; unfold play; try rewrite Hl; simpl;
      apply IH; simpl; auto.
Qed.

Lemma run_not_live (ops : list Op) (p : LiveStreamPlayer.t) :
  live p = false ->
  if play_before_start ops
  then run ops p = inr "Must start live stream before play()!"%string
  else exists p', run ops p = inl p' /\ live p' = existsb is_start ops.
Proof.
  revert p; induction ops as [|o ops IH]; intros p Hl.
  - simpl. exists p. split; [reflexivity | exact Hl].
  - destruct o as [url|src| |dest]; simpl.
    + destruct (run_live ops (startStream url p) eq_refl) as (p' & Hr & Hl').
      exists p'. split; assumption.
    + unfold play. rewrite Hl. reflexivity.
    + apply (IH (pause p)). exact Hl.
    + apply (IH (record dest p)). exact Hl.
Qed.

(** A sequence of calls on a fresh [LiveStreamPlayer] ends in the
    exception of [play] exactly when some [play] comes before every
    [startStream]; otherwise all calls return, and the player is live
    exactly when the sequence holds a [startStream].  Once the stream is
    started nothing stops it, so no later [play] throws. *)
Theorem solved_play_throws_iff_not_started :
  forall ops : list Op,
    (run ops init = inr "Must start live stream before play()!"%string
     <-> play_before_start ops = true)
    /\ (play_before_start ops = false ->
        exists p, run ops init = inl p /\ isLive p = existsb is_start ops)
    /\ (forall (url : string) (ops' : list Op),
           exists p, run (StartStream url :: ops') init = inl p /\ isLive p = true).
Proof.
  intro ops.
  pose proof (run_not_live ops init eq_refl) as H.
  split; [|split].
  - destruct (play_before_start ops).
    + tauto.
    + destruct H as (p & Hr & _). rewrite Hr. split; discriminate.
  - intro Hf. rewrite Hf in H. exact H.
  - intros url ops'. apply (run_live ops' (startStream url init)). reflexivity.
Qed.

Lemma solved_play_throws_iff_not_started_witness :
  exists p, run [Pause; StartStream "rtsp://camera"%string; Play "rtsp://camera"%string] init
            = inl p
            /\ isLive p = true.
Proof.
  apply (proj1 (proj2 (solved_play_throws_iff_not_started
           [Pause; StartStream "rtsp://camera"%string; Play "rtsp://camera"%string]))).
  reflexivity.
Defined.

Lemma playing_live_step (p p' : LiveStreamPlayer.t) (o : Op) :
  (playing p = true -> live p = true) ->
  step p o = inl p' ->
  (playing p' = true -> live p' = true).
Proof.
  intros Hinv Hs. destruct o as [url|src| |dest]; simpl in Hs.
  - injection Hs as <-. reflexivity.
  - unfold play in Hs. destruct (live p) eqn:El; simpl in Hs; [|discriminate].
    injection Hs as <-. reflexivity.
  - injection Hs as <-. simpl. discriminate.
  - injection Hs as <-. exact Hinv.
Qed.

(** A [LiveStreamPlayer] never plays a stream that is not live: after
    any sequence of calls that all returned, [isPlaying] implies
    [isLive]; and a [play] throws only on a player that is not live,
    the exception ending the sequence of calls. *)
Theorem solved_playing_implies_live :
  (forall (ops : list Op) (p : LiveStreamPlayer.t),
      run ops init = inl p -> isPlaying p = true -> isLive p = true)
  /\ (forall (src msg : string) (p : LiveStreamPlayer.t),
         play src p = inr msg ->
         isLive p = false /\ run [Play src; Pause] p = inr msg).
Proof.
  split.
  - intro ops.
    assert (Hgen : forall p0 p, (playing p0 = true -> live p0 = true) ->
                                run ops p0 = inl p ->
                                playing p = true -> live p = true).
    { induction ops as [|o ops IH]; intros p0 p Hinv Hr.
      - injection Hr as <-. exact Hinv.
      - simpl in Hr. destruct (step p0 o) as [p1|msg] eqn:Es; [|discriminate].
        apply (IH p1 p); [|exact Hr].
        apply (playing_live_step p0 p1 o Hinv Es). }
    intros p Hr. apply (Hgen init p); [discriminate | exact Hr].
  - intros src msg p Hp. unfold play in Hp.
    destruct (live p) eqn:El; simpl in Hp; [discriminate|].
    split; [exact El|]. simpl. unfold play. rewrite El. simpl. exact Hp.
Qed.

Lemma solved_playing_implies_live_witness :
  isLive {| live := true; playing := true |} = true.
Proof.
  apply (proj1 solved_playing_implies_live
           [StartStream "rtsp://camera"%string; Play "rtsp://camera"%string]);
    reflexivity.
Defined.

End MediaSolvedFacts.

(** * Sign-up notifications *)

Module NotifyFacts.
Import Notify.

Lemma composite_notify_app {W} (l1 l2 : list (INotifier.t W)) (u : User) (w : W) :
  CompositeNotifier.notify {| CompositeNotifier.notifiers := l1 ++ l2 |} u w
  = CompositeNotifier.notify {| CompositeNotifier.notifiers := l2 |} u
      (CompositeNotifier.notify {| CompositeNotifier.notifiers := l1 |} u w).
Proof. unfold CompositeNotifier.notify; simpl. apply fold_left_app. Qed.

(** A [CompositeNotifier] notifies its members in the order they were
    added: the notifier added last runs after all the others, and a
    composite added as a member behaves as its own members spliced in
    at its place. *)
Theorem composite_notifies_in_order :
  forall (W : Type) (n : INotifier.t W) (c inner : CompositeNotifier.t W)
         (l1 l2 : list (INotifier.t W)) (u : User) (w : W),
    CompositeNotifier.notify (CompositeNotifier.add n c) u w
    = INotifier.notify n u (CompositeNotifier.notify c u w)
    /\ CompositeNotifier.notify
         {| CompositeNotifier.notifiers := l1 ++ CompositeNotifier.make inner :: l2 |} u w
       = CompositeNotifier.notify
           {| CompositeNotifier.notifiers :=
                l1 ++ CompositeNotifier.notifiers inner ++ l2 |} u w.
Proof.
  intros W n c inner l1 l2 u w. split.
  - unfold CompositeNotifier.add. rewrite composite_notify_app. reflexivity.
  - rewrite !composite_notify_app.
    change (CompositeNotifier.make inner :: l2)
      with ([CompositeNotifier.make inner] ++ l2).
    rewrite composite_notify_app. destruct inner as [ns]. reflexivity.
Qed.

(** [signUp] refuses a user without e-mail address: it returns [false]
    and no notifier is called, whatever the phone number; otherwise it
    returns [true] after the notifier ran once.  With the composition
    root of [main] the calls are the welcome e-mail, then the OTP text
    message, which goes out even to an empty phone number. *)
Theorem sign_up_notifications :
  (forall (W : Type) (svc : SignUpService.t W) (u : User) (w : W),
      fst (SignUpService.signUp svc u w) = negb (String.eqb (email u) EmptyString)
      /\ snd (SignUpService.signUp svc u w)
         = if String.eqb (email u) EmptyString then w
           else INotifier.notify (SignUpService.notifier svc) u w)
  /\ (forall (u : User) (w : list Call),
         snd (SignUpService.signUp
                (composition_root recording_mailer recording_sms) u w)
         = if String.eqb (email u) EmptyString then w
           else w ++ [Email "welcome" (email u) "Welcome!";
                      Sms (phone u) "123456"]).
Proof.
  split.
  - intros W svc u w. unfold SignUpService.signUp.
    destruct (String.eqb (email u) EmptyString); split; reflexivity.
  - intros u w. unfold SignUpService.signUp.
    destruct (String.eqb (email u) EmptyString); [reflexivity|].
    simpl. unfold CompositeNotifier.notify. simpl.
    unfold WelcomeEmailNotifier.notify, OTPNotifier.notify. simpl.
    rewrite <- app_assoc. reflexivity.
Qed.

End NotifyFacts.

(** * The invoice service with the program's collaborators *)

Module InvoiceFacts.
Import Format.

Lemma all_digits_app (a b : string) :
  all_digits (a ++ b) = all_digits a && all_digits b.
Proof.
  induction a as [|c a IH]; simpl; [reflexivity|].
  now rewrite IH, andb_assoc.
Qed.

Lemma digit_is_digit (d : Z) : 0 <= d < 10 -> is_digit (digit d) = true.
Proof.
  intro H.
  assert (E : d = 0 \/ d = 1 \/ d = 2 \/ d = 3 \/ d = 4 \/ d = 5 \/ d = 6
              \/ d = 7 \/ d = 8 \/ d = 9) by lia.
  repeat (destruct E as [E|E]; [subst d; reflexivity|]). subst d; reflexivity.
Qed.

Lemma fixed_digits_length (k : nat) (n : Z) :
  String.length (fixed_digits k n) = k.
Proof.
  revert n; induction k as [|k IH]; intro n; cbn [fixed_digits]; [reflexivity|].
  rewrite string_app_length, IH. cbn [String.length]. lia.
Qed.

Lemma fixed_digits_all_digits (k : nat) (n : Z) :
  all_digits (fixed_digits k n) = true.
Proof.
  revert n; induction k as [|k IH]; intro n; cbn [fixed_digits]; [reflexivity|].
  rewrite all_digits_app, IH. cbn [all_digits andb].
  rewrite digit_is_digit; [reflexivity|]. apply Z.mod_pos_bound. lia.
Qed.

Lemma uint_all_digits (d : Decimal.uint) :
  all_digits (NilEmpty.string_of_uint d) = true.
Proof. induction d; simpl; trivial. Qed.

Lemma dec_nonneg (n : Z) :
  0 <= n -> all_digits (dec n) = true /\ dec n <> EmptyString.
Proof.
  intro H. unfold dec. destruct n as [|p|p]; [split; [reflexivity|discriminate]| |lia].
  simpl. split.
  - destruct (Pos.to_uint p); try reflexivity; apply uint_all_digits.
  - destruct (Pos.to_uint p); discriminate.
Qed.

Lemma round_half_even_nonneg (n d : Z) :
  0 <= n -> 0 < d -> 0 <= round_half_even n d.
Proof.
  intros Hn Hd. unfold round_half_even.
  assert (0 <= n / d) by (apply Z.div_pos; lia).
  destruct (2 * (n mod d) ?= d); try lia. destruct (Z.even (n / d)); lia.
Qed.

Lemma scaled_nonneg (m : positive) (e k : Z) : 0 <= scaled m e k.
Proof.
  unfold scaled. apply round_half_even_nonneg.
  - apply Z.mul_nonneg_nonneg; [apply Z.mul_nonneg_nonneg; [lia|]|];
      apply Z.pow_nonneg; lia.
  - apply Z.mul_pos_pos; apply Z.pow_pos_nonneg; lia.
Qed.

Lemma to_string_finite (x : double) :
  is_finite x = true ->
  exists int_part frac : string,
    to_string x = (sign_str (signbit x) ++ int_part ++ "." ++ frac)%string
    /\ String.length frac = 6%nat
    /\ all_digits frac = true
    /\ all_digits int_part = true
    /\ int_part <> EmptyString.
Proof.
  destruct x as [s|s| |s m e]; try discriminate; intros _.
  - exists "0"%string, (fixed_digits 6 0). repeat split; discriminate.
  - exists (dec (scaled m e 6 / 10 ^ 6)), (fixed_digits 6 (scaled m e 6)).
    assert (H : 0 <= scaled m e 6 / 10 ^ 6).
    { apply Z.div_pos; [apply scaled_nonneg | reflexivity]. }
    destruct (dec_nonneg _ H) as [H1 H2].
    split; [reflexivity|]. split; [apply fixed_digits_length|].
    split; [apply fixed_digits_all_digits|]. split; assumption.
Qed.

Lemma add_start_swap (x y : double) :
  (zero + x + y)%D = (zero + y + x)%D.
Proof.
  destruct x as [[]|[]| |sx mx ex], y as [[]|[]| |sy my ey]; try reflexivity.
  change (zero + S754_finite sx mx ex)%D with (S754_finite sx mx ex).
  change (zero + S754_finite sy my ey)%D with (S754_finite sy my ey).
  apply add_comm.
Qed.

Lemma subtotal_as_dsum {W} (svc : InvoiceService.t W) items ds :
  InvoiceService.subtotal (InvoiceService.amounts svc items ds)
  = dsum (map extended_price items).
Proof.
  rewrite subtotal_amounts. unfold dsum.
  generalize zero. induction items as [|it items IH]; intro acc; cbn [fold_left map].
  - reflexivity.
  - change (extended_price it) with (of_int (quantity it) * unitPrice it)%D.
    rewrite (mul_comm (of_int (quantity it))). apply IH.
Qed.

(** The subtotal is the sum of quantity times unit price accumulated
    from 0.0 in the order of the items, each step rounded.  Exchanging
    the first two items never changes it, but the order matters in
    general: the prices 0.10, 0.20, 0.30 give another subtotal when
    the items are reversed. *)
Theorem subtotal_depends_on_order :
  (forall (W : Type) (svc : InvoiceService.t W) (items : list LineItem)
          (ds : list IDiscountStrategy.t),
      InvoiceService.subtotal (InvoiceService.amounts svc items ds)
      = dsum (map extended_price items))
  /\ (forall (W : Type) (svc : InvoiceService.t W) (a b : LineItem)
             (rest : list LineItem) (ds : list IDiscountStrategy.t),
         InvoiceService.subtotal (InvoiceService.amounts svc (a :: b :: rest) ds)
         = InvoiceService.subtotal (InvoiceService.amounts svc (b :: a :: rest) ds))
  /\ (Permutation cents_items (rev cents_items)
      /\ forall (W : Type) (svc : InvoiceService.t W) (ds : list IDiscountStrategy.t),
           InvoiceService.subtotal (InvoiceService.amounts svc cents_items ds)
           <> InvoiceService.subtotal (InvoiceService.amounts svc (rev cents_items) ds)).
Proof.
  split; [|split].
  - intros W svc items ds. apply subtotal_as_dsum.
  - intros W svc a b rest ds. rewrite !subtotal_amounts. cbn [fold_left].
    rewrite add_start_swap. reflexivity.
  - split; [apply Permutation_rev|].
    intros W svc ds. rewrite !subtotal_amounts. vm_compute. discriminate.
Qed.

Lemma zero_quantity_step (p : double) :
  is_finite p = true -> (zero + p * of_int 0)%D = zero.
Proof. destruct p as [[]|[]| |[] m e]; try discriminate; reflexivity. Qed.

Lemma zero_quantity_subtotal (items : list LineItem) :
  (forall it, In it items -> quantity it = 0 /\ is_finite (unitPrice it) = true) ->
  fold_left (fun acc it => (acc + unitPrice it * of_int (quantity it))%D) items zero
  = zero.
Proof.
  induction items as [|it items IH]; intro H; cbn [fold_left].
  - reflexivity.
  - destruct (H it (or_introl eq_refl)) as [Hq Hf].
    rewrite Hq, (zero_quantity_step _ Hf).
    apply IH. intros it' Hin. apply H. now right.
Qed.

(** Items with quantity 0 and a finite unit price add nothing: an
    invoice made only of such items, or of no item at all, without
    discounts has subtotal, discount total, tax and grand total 0.0 and
    shows 0 on its four summary lines.  The price must be finite: at
    quantity 0 an infinite unit price makes the subtotal a NaN. *)
Theorem zero_quantity_invoice :
  (forall (W : Type) (e : IEmailService.t W) (l : ILogger.t W)
          (items : list LineItem) (email : string) (w : W),
      (forall it, In it items -> quantity it = 0 /\ is_finite (unitPrice it) = true) ->
      InvoiceService.amounts (gst_text_service e l) items []
      = {| InvoiceService.subtotal := zero; InvoiceService.discount_total := zero;
           InvoiceService.tax := zero; InvoiceService.grand := zero |}
      /\ fst (InvoiceService.process (gst_text_service e l) items [] email w)
         = unlines ("INVOICE"%string :: map item_line items
                      ++ [ "Subtotal: 0"; "Discounts: 0"; "Tax: 0"; "Total: 0" ]%string))
  /\ is_nan (InvoiceService.subtotal
               (InvoiceService.amounts (Recording.svc GST18.make SimpleTextRenderer.make)
                  [ {| sku := "A"; quantity := 0; unitPrice := S754_infinity false |} ] []))
     = true.
Proof.
  split; [|reflexivity].
  intros W e l items email w H.
  assert (Ha : InvoiceService.amounts (gst_text_service e l) items []
               = {| InvoiceService.subtotal := zero;
                    InvoiceService.discount_total := zero;
                    InvoiceService.tax := zero; InvoiceService.grand := zero |}).
  { unfold InvoiceService.amounts. rewrite (zero_quantity_subtotal items H).
    reflexivity. }
  split; [exact Ha|].
  unfold InvoiceService.process. rewrite Ha. cbn [fst].
  unfold gst_text_service. cbn [InvoiceService.renderer].
  unfold SimpleTextRenderer.make. cbn [IInvoiceRenderer.render].
  apply render_layout.
Qed.

Lemma zero_quantity_invoice_witness :
  InvoiceService.amounts (gst_text_service Recording.emailer Recording.logger)
    [ {| sku := "A"; quantity := 0; unitPrice := of_int 100 |} ] []
  = {| InvoiceService.subtotal := zero; InvoiceService.discount_total := zero;
       InvoiceService.tax := zero; InvoiceService.grand := zero |}.
Proof.
  apply (proj1 zero_quantity_invoice Recording.World Recording.emailer Recording.logger
           [ {| sku := "A"; quantity := 0; unitPrice := of_int 100 |} ]
           EmptyString []).
  intros it [<-|[]]. split; reflexivity.
Defined.

(** The 18% rule never turns a number into a NaN and never changes its
    sign: the tax on any base that is not a NaN carries the sign of
    the base (negative bases give negative taxes or -0.0, infinite
    bases infinite taxes). *)
Theorem gst18_keeps_sign :
  forall base : double,
    is_nan base = false ->
    has_sign (signbit base) (GST18.compute base).
Proof.
  intros base Hn. unfold GST18.compute. rewrite rate_value.
  destruct base as [s|s| |s m e]; try discriminate Hn.
  - simpl. now destruct s.
  - simpl. now destruct s.
  - unfold mul, SFmul. cbn [signbit].
    replace (xorb s false) with s by (now destruct s).
    apply binary_round_aux_sign. lia.
Qed.

Lemma gst18_keeps_sign_witness :
  has_sign (signbit (of_int (-900))) (GST18.compute (of_int (-900))).
Proof. apply (gst18_keeps_sign (of_int (-900))). reflexivity. Defined.

(** Two [FlatOff] strategies with different [int] amounts never return
    the same discount: the conversion of the amount to [double] loses
    nothing, whatever the subtotals passed. *)
Theorem flat_off_amounts_distinct :
  forall (a b : Z) (s s' : double),
    int_range a -> int_range b ->
    FlatOff.compute a s = FlatOff.compute b s' -> a = b.
Proof.
  intros a b s s' Ha Hb H. unfold FlatOff.compute in H.
  rewrite <- (trunc_of_int a Ha), <- (trunc_of_int b Hb), H. reflexivity.
Qed.

Lemma flat_off_amounts_distinct_witness : 1000 = 1000.
Proof.
  apply (flat_off_amounts_distinct 1000 1000 zero (of_int 100));
    [unfold int_range; lia | unfold int_range; lia | reflexivity].
Defined.

Lemma div_sign (sx sy : bool) (mx my : positive) (ex ey : Z) :
  has_sign (xorb sx sy) (S754_finite sx mx ex / S754_finite sy my ey)%D.
Proof.
  unfold div, SFdiv, SFdiv_core_binary.
  set (e' := Z.min _ _). set (m' := match _ - _ - e' with Z0 => _ | _ => _ end).
  assert (Hm : 0 <= m').
  { unfold m'. destruct (ex - ey - e'); try lia. apply Z.shiftl_nonneg. lia. }
  pose proof (Z.div_pos m' (Z.pos my) Hm eq_refl) as Hq.
  unfold Z.div in Hq. destruct (Z.div_eucl m' (Z.pos my)) as [q r].
  apply binary_round_aux_sign. exact Hq.
Qed.

(** On a finite subtotal that is not zero, a percentage discount with a
    finite percentage is never a NaN and has the sign of subtotal
    times percentage: a negative percentage on a positive subtotal
    gives a negative discount, that is a surcharge. *)
Theorem percent_off_sign :
  forall (percent : double) (s : bool) (m : positive) (e : Z),
    is_finite percent = true ->
    has_sign (xorb s (signbit percent))
             (PercentOff.compute percent (S754_finite s m e)).
Proof.
  intros percent s m e Hf. unfold PercentOff.compute.
  assert (Hd : has_sign (signbit percent) (percent / of_int 100)%D).
  { destruct percent as [sp|sp| |sp mp ep]; try discriminate Hf.
    - simpl. now destruct sp.
    - change (of_int 100) with (S754_finite false 7036874417766400 (-46)).
      cbn [signbit]. replace sp with (xorb sp false) at 1 by (now destruct sp).
      apply div_sign. }
  destruct (percent / of_int 100)%D as [sd|sd| |sd md ed]; simpl in Hd;
    try contradiction; subst sd.
  - reflexivity.
  - reflexivity.
  - unfold mul, SFmul. apply binary_round_aux_sign. lia.
Qed.

Lemma percent_off_sign_witness :
  has_sign (xorb false (signbit (of_int (-10))))
           (PercentOff.compute (of_int (-10)) (S754_finite false 7036874417766400 (-46))).
Proof.
  apply (percent_off_sign (of_int (-10)) false 7036874417766400 (-46)). reflexivity.
Defined.

End InvoiceFacts.

(** * Whole-number invoices *)

Module WholeNumbers.
Import InvoiceService.


Lemma iter_shr_1_xO (k n : positive) :
  iter_pos shr_1 k {| shr_m := Z.pos (Pos.iter xO n k); shr_r := false; shr_s := false |}
  = {| shr_m := Z.pos n; shr_r := false; shr_s := false |}.
Proof.
  revert n; induction k as [k IH|k IH|]; intro n; simpl.
  - rewrite IH, IH. reflexivity.
  - rewrite IH, IH. reflexivity.
  - reflexivity.
Qed.

Lemma pos_of_shift (m mc : positive) (k : Z) :
  0 <= k -> Z.pos m = Z.pos mc * 2 ^ k ->
  match k with
  | Z.pos p => m = Pos.iter xO mc p
  | _ => m = mc
  end.
Proof.
  intros Hk H. destruct k as [|p|p]; [|  |lia].
  - rewrite Z.pow_0_r, Z.mul_1_r in H. now injection H.
  - rewrite <- pos_iter_xO_value in H. now injection H.
Qed.

Lemma digits2_pos_shift (m mc : positive) (k : Z) :
  0 <= k -> Z.pos m = Z.pos mc * 2 ^ k ->
  Z.pos (digits2_pos m) = Z.pos (digits2_pos mc) + k.
Proof.
  intros Hk H. pose proof (pos_of_shift m mc k Hk H) as E.
  destruct k as [|p|p]; subst; [lia | apply digits2_pos_iter_xO | lia].
Qed.


Lemma round_exact (s : bool) (m mc : positive) (e ec : Z) :
  Z.pos (digits2_pos mc) = prec ->
  -1074 <= ec <= 971 ->
  e <= ec ->
  Z.pos m = Z.pos mc * 2 ^ (ec - e) ->
  binary_round_aux prec emax s (Z.pos m) e loc_Exact = S754_finite s mc ec.
Proof.
  intros Hd Hec He Hm.
  assert (Hk : 0 <= ec - e) by lia.
  pose proof (digits2_pos_shift m mc (ec - e) Hk Hm) as Hdm.
  pose proof (pos_of_shift m mc (ec - e) Hk Hm) as Hsh.
  assert (Hfix : forall l, shr_fexp prec emax (Z.pos mc) ec l
                           = (shr_record_of_loc (Z.pos mc) l, ec)).
  { intro l. unfold shr_fexp. simpl Zdigits2. rewrite Hd.
    replace (fexp prec emax (prec + ec) - ec) with 0; [reflexivity|].
    unfold fexp, emin, prec, emax in *. lia. }
  assert (H1 : shr_fexp prec emax (Z.pos m) e loc_Exact
               = ({| shr_m := Z.pos mc; shr_r := false; shr_s := false |}, ec)).
  { unfold shr_fexp. simpl Zdigits2. rewrite Hdm, Hd.
    replace (fexp prec emax (prec + (ec - e) + e) - e) with (ec - e)
      by (unfold fexp, emin, prec, emax in *; lia).
    destruct (ec - e) as [|p|p] eqn:Ek; [| |lia].
    - subst m. simpl. f_equal. lia.
    - subst m. unfold shr, shr_record_of_loc. rewrite iter_shr_1_xO. f_equal. lia. }
  unfold binary_round_aux. rewrite H1. cbn [shr_m loc_of_shr_record round_nearest_even].
  rewrite Hfix. cbn [shr_record_of_loc shr_m].
  replace (ec <=? emax - prec) with true; [reflexivity|].
  symmetry. apply Z.leb_le. unfold prec, emax. lia.
Qed.



Lemma shl_align_value (m : positive) (e e' : Z) :
  e' <= e -> Z.pos (fst (shl_align m e e')) = Z.pos m * 2 ^ (e - e').
Proof.
  intro H. unfold shl_align.
  destruct (e' - e) as [|p|p] eqn:E; cbn [fst].
  - replace (e - e') with 0 by lia. lia.
  - lia.
  - rewrite pos_iter_xO_value. replace (e - e') with (Z.pos p) by lia. reflexivity.
Qed.

Lemma canonical_int_mantissa (p : positive) :
  Z.pos (digits2_pos p) <= prec ->
  let mc := fst (shl_align p 0 (Z.pos (digits2_pos p) - prec)) in
  Z.pos mc = Z.pos p * 2 ^ (prec - Z.pos (digits2_pos p))
  /\ Z.pos (digits2_pos mc) = prec.
Proof.
  intros Hd mc.
  assert (Hv : Z.pos mc = Z.pos p * 2 ^ (prec - Z.pos (digits2_pos p))).
  { unfold mc. rewrite shl_align_value by lia. f_equal. f_equal. lia. }
  split; [exact Hv|].
  rewrite (digits2_pos_shift mc p (prec - Z.pos (digits2_pos p))); [lia|lia|exact Hv].
Qed.

Lemma binary_round_exact (s : bool) (z n : positive) (ez : Z) :
  -1074 <= ez <= 0 ->
  Z.pos (digits2_pos n) <= prec ->
  Z.pos z = Z.pos n * 2 ^ (- ez) ->
  binary_round prec emax s z ez = canonical_int s n.
Proof.
  intros Hez Hdn Hz.
  destruct (canonical_int_mantissa n Hdn) as [Hmc Hdmc].
  set (mc := fst (shl_align n 0 (Z.pos (digits2_pos n) - prec))) in *.
  remember (Z.pos (digits2_pos n)) as dn eqn:Edn.
  assert (Hdn1 : 1 <= dn) by lia.
  pose proof (digits2_pos_shift z n (- ez) ltac:(lia) Hz) as Hdz.
  rewrite <- Edn in Hdz.
  unfold binary_round, canonical_int. rewrite <- Edn. fold mc.
  rewrite Hdz.
  replace (fexp prec emax (dn + - ez + ez)) with (dn - prec)
    by (unfold fexp, emin, prec, emax in *; lia).
  destruct (shl_align z ez (dn - prec)) as [mz ez'] eqn:Es.
  assert (Hshl : ez' = Z.min ez (dn - prec) /\ Z.pos mz = Z.pos z * 2 ^ (ez - ez')).
  { unfold shl_align in Es.
    destruct (dn - prec - ez) as [|p|p] eqn:E; injection Es as <- <-.
    - split; [lia|]. replace (ez - ez) with 0 by lia. lia.
    - split; [lia|]. replace (ez - ez) with 0 by lia. lia.
    - split; [lia|]. rewrite pos_iter_xO_value.
      replace (ez - (dn - prec)) with (Z.pos p) by lia. reflexivity. }
  destruct Hshl as [He' Hmz].
  apply round_exact.
  - exact Hdmc.
  - unfold prec in *. lia.
  - lia.
  - rewrite Hmz, Hz, Hmc, <- !Z.mul_assoc, <- !Z.pow_add_r by (unfold prec in *; lia).
    f_equal. f_equal. lia.
Qed.


Lemma digits2_pos_mul_lower (a b : positive) :
  Z.pos (digits2_pos a) + Z.pos (digits2_pos b) - 1 <= Z.pos (digits2_pos (a * b)).
Proof.
  pose proof (digits2_pos_le a) as Ha. pose proof (digits2_pos_le b) as Hb.
  pose proof (digits2_pos_lt (a * b)) as Hab.
  set (da := Z.pos (digits2_pos a)) in *. set (db := Z.pos (digits2_pos b)) in *.
  set (dab := Z.pos (digits2_pos (a * b))) in *.
  assert (H : 2 ^ (da + db - 2) < 2 ^ dab).
  { replace (da + db - 2) with ((da - 1) + (db - 1)) by lia.
    rewrite Z.pow_add_r by (unfold da, db; lia).
    rewrite Pos2Z.inj_mul in Hab.
    assert (2 ^ (da - 1) * 2 ^ (db - 1) <= Z.pos a * Z.pos b).
    { apply Z.mul_le_mono_nonneg; try assumption; apply Z.pow_nonneg; lia. }
    lia. }
  apply Z.pow_lt_mono_r_iff in H; unfold dab in *; lia.
Qed.

Lemma digits2_pos_mono (a b : positive) :
  Z.pos a <= Z.pos b -> Z.pos (digits2_pos a) <= Z.pos (digits2_pos b).
Proof.
  intro H. apply digits2_pos_bound; [lia|].
  pose proof (digits2_pos_lt b). lia.
Qed.

Lemma mul_canonical (sa sb : bool) (a b : positive) :
  Z.pos (digits2_pos (a * b)) <= prec ->
  (canonical_int sa a * canonical_int sb b)%D = canonical_int (xorb sa sb) (a * b).
Proof.
  intro Hd.
  assert (Hda : Z.pos (digits2_pos a) <= Z.pos (digits2_pos (a * b))).
  { apply digits2_pos_mono. rewrite Pos2Z.inj_mul. nia. }
  assert (Hdb : Z.pos (digits2_pos b) <= Z.pos (digits2_pos (a * b))).
  { apply digits2_pos_mono. rewrite Pos2Z.inj_mul. nia. }
  pose proof (digits2_pos_mul_lower a b) as Hlow.
  destruct (canonical_int_mantissa a ltac:(lia)) as [Hma _].
  destruct (canonical_int_mantissa b ltac:(lia)) as [Hmb _].
  destruct (canonical_int_mantissa (a * b)%positive Hd) as [Hmc Hdmc].
  unfold canonical_int, mul, SFmul.
  remember (Z.pos (digits2_pos a)) as da.
  remember (Z.pos (digits2_pos b)) as db.
  remember (Z.pos (digits2_pos (a * b))) as dab.
  apply round_exact.
  - exact Hdmc.
  - unfold prec in *. lia.
  - unfold prec in *. lia.
  - rewrite Pos2Z.inj_mul, Hma, Hmb, Hmc, Pos2Z.inj_mul.
    assert (H : 2 ^ (prec - da) * 2 ^ (prec - db)
                = 2 ^ (prec - dab) * 2 ^ (dab - prec - (da - prec + (db - prec)))).
    { rewrite <- !Z.pow_add_r by (unfold prec in *; lia). f_equal. lia. }
    transitivity (Z.pos a * Z.pos b * (2 ^ (prec - da) * 2 ^ (prec - db))); [ring|].
    rewrite H. ring.
Qed.


Lemma cond_Zopp_mul (s : bool) (x y : Z) : cond_Zopp s x * y = cond_Zopp s (x * y).
Proof. destruct s; simpl; ring. Qed.

Lemma add_canonical (sa sb : bool) (a b : positive) :
  Z.pos (digits2_pos a) <= prec ->
  Z.pos (digits2_pos b) <= prec ->
  Z.abs (cond_Zopp sa (Z.pos a) + cond_Zopp sb (Z.pos b)) < 2 ^ prec ->
  (canonical_int sa a + canonical_int sb b)%D
  = exact_int (cond_Zopp sa (Z.pos a) + cond_Zopp sb (Z.pos b)).
Proof.
  intros Hda Hdb Hc.
  destruct (canonical_int_mantissa a Hda) as [Hma _].
  destruct (canonical_int_mantissa b Hdb) as [Hmb _].
  unfold canonical_int, add, SFadd.
  remember (Z.pos (digits2_pos a)) as da.
  remember (Z.pos (digits2_pos b)) as db.
  set (ma := fst (shl_align a 0 (da - prec))) in *.
  set (mb := fst (shl_align b 0 (db - prec))) in *.
  set (ez := Z.min (da - prec) (db - prec)).
  assert (Hez : -52 <= ez <= 0) by (unfold ez, prec in *; lia).
  set (c := cond_Zopp sa (Z.pos a) + cond_Zopp sb (Z.pos b)) in *.
  assert (HS : cond_Zopp sa (Z.pos (fst (shl_align ma (da - prec) ez)))
               + cond_Zopp sb (Z.pos (fst (shl_align mb (db - prec) ez)))
               = c * 2 ^ (- ez)).
  { rewrite !shl_align_value by (unfold ez; lia). rewrite Hma, Hmb.
    unfold c. rewrite Z.mul_add_distr_r, !cond_Zopp_mul.
    rewrite <- !Z.mul_assoc, <- !Z.pow_add_r by (unfold prec in *; lia).
    do 2 f_equal; f_equal; f_equal; lia. }
  rewrite HS.
  assert (Hp : 0 < 2 ^ (- ez)) by (apply Z.pow_pos_nonneg; lia).
  destruct c as [|pc|pc] eqn:Ec.
  - reflexivity.
  - destruct (Z.pos pc * 2 ^ (- ez)) as [|z|z] eqn:Ez; try lia.
    unfold binary_normalize, exact_int.
    apply binary_round_exact; [lia | | symmetry; exact Ez].
    apply digits2_pos_bound; [unfold prec; lia | exact Hc].
  - destruct (Z.neg pc * 2 ^ (- ez)) as [|z|z] eqn:Ez; try lia.
    unfold binary_normalize, exact_int.
    apply binary_round_exact; [lia | | lia].
    apply digits2_pos_bound; [unfold prec; lia | exact Hc].
Qed.

Lemma small_digits (p : positive) : Z.pos p < 2 ^ prec -> Z.pos (digits2_pos p) <= prec.
Proof. intro H. apply digits2_pos_bound; [unfold prec; lia | exact H]. Qed.

Lemma of_int_exact (z : Z) : Z.abs z < 2 ^ prec -> of_int z = exact_int z.
Proof.
  intro H. destruct z as [|p|p].
  - reflexivity.
  - apply of_int_pos, small_digits. exact H.
  - apply of_int_neg, small_digits. exact H.
Qed.

Lemma add_exact (a b : Z) :
  Z.abs a < 2 ^ prec -> Z.abs b < 2 ^ prec -> Z.abs (a + b) < 2 ^ prec ->
  (exact_int a + exact_int b)%D = exact_int (a + b).
Proof.
  intros Ha Hb Hc.
  destruct a as [|pa|pa], b as [|pb|pb]; try reflexivity.
  - apply (add_canonical false false); try apply small_digits; assumption.
  - apply (add_canonical false true); try apply small_digits; assumption.
  - apply (add_canonical true false); try apply small_digits; assumption.
  - apply (add_canonical true true); try apply small_digits; assumption.
Qed.

Lemma mul_exact (a b : Z) :
  a <> 0 -> b <> 0 -> Z.abs (a * b) < 2 ^ prec ->
  (exact_int a * exact_int b)%D = exact_int (a * b).
Proof.
  intros Ha Hb Hc.
  destruct a as [|pa|pa], b as [|pb|pb]; try contradiction;
    simpl Z.mul; unfold exact_int;
    rewrite mul_canonical; try reflexivity; apply small_digits; exact Hc.
Qed.

Lemma add_exact_zero (a : Z) (s : bool) :
  (exact_int a + S754_zero s)%D = exact_int a.
Proof. destruct a, s; reflexivity. Qed.

Lemma mul_exact_zero (a b : Z) :
  a = 0 \/ b = 0 -> exists s, (exact_int a * exact_int b)%D = S754_zero s.
Proof.
  intros [->| ->].
  - destruct b; simpl; eexists; reflexivity.
  - destruct a; simpl; eexists; reflexivity.
Qed.





Lemma zsum_abs_nonneg (items : list LineItem) :
  0 <= zsum (map (fun it => Z.abs (whole_amount it)) items).
Proof. induction items as [|it items IH]; simpl; lia. Qed.

Lemma whole_subtotal_from (items : list LineItem) (A : Z) :
  Forall whole_item items ->
  Z.abs A + zsum (map (fun it => Z.abs (whole_amount it)) items) < 2 ^ 53 ->
  fold_left (fun acc it => (acc + unitPrice it * of_int (quantity it))%D) items (exact_int A)
  = exact_int (A + zsum (map whole_amount items)).
Proof.
  revert A; induction items as [|it items IH]; intros A Hall Hb.
  - simpl. f_equal. lia.
  - inversion Hall as [|? ? (Hq & Hp & Hu) Hall']; subst.
    pose proof (zsum_abs_nonneg items) as Hnn.
    cbn [fold_left map zsum fold_right] in *. fold (zsum (map whole_amount items)).
    fold (zsum (map (fun it => Z.abs (whole_amount it)) items)) in Hb.
    assert (Hstep : (exact_int A + unitPrice it * of_int (quantity it))%D
                    = exact_int (A + whole_amount it)).
    { rewrite Hu. rewrite !of_int_exact
        by (unfold prec; unfold int_range in Hq; lia).
      unfold whole_amount in *.
      set (P := trunc (unitPrice it)) in *. set (q := quantity it) in *.
      destruct (Z.eq_dec P 0) as [HP|HP]; [|destruct (Z.eq_dec q 0) as [Hq0|Hq0]].
      - destruct (mul_exact_zero P q (or_introl HP)) as [s Hs].
        rewrite Hs, add_exact_zero. f_equal. rewrite HP. lia.
      - destruct (mul_exact_zero P q (or_intror Hq0)) as [s Hs].
        rewrite Hs, add_exact_zero. f_equal. rewrite Hq0. lia.
      - rewrite mul_exact by (try assumption; unfold prec; rewrite Z.mul_comm; lia).
        rewrite add_exact by (unfold prec; rewrite ?(Z.mul_comm P q); lia).
        f_equal. ring. }
    rewrite Hstep.
    rewrite IH; [f_equal; lia | exact Hall' | lia].
Qed.

Lemma zsum_perm (l l' : list Z) : Permutation l l' -> zsum l = zsum l'.
Proof. induction 1; simpl; lia. Qed.

(** On whole-number invoices nothing is rounded: when every item has an
    [int] quantity and a whole-number unit price, and the absolute
    extended prices sum to less than [2^53], the subtotal is exactly
    the integer sum of quantity times unit price, and it is the same
    for every permutation of the items. *)
Theorem whole_number_subtotal_exact :
  forall (W : Type) (svc : InvoiceService.t W) (items items' : list LineItem)
         (ds : list IDiscountStrategy.t),
    Forall whole_item items ->
    zsum (map (fun it => Z.abs (whole_amount it)) items) < 2 ^ 53 ->
    subtotal (amounts svc items ds) = of_int (zsum (map whole_amount items))
    /\ (Permutation items items' ->
        subtotal (amounts svc items' ds) = subtotal (amounts svc items ds)).
Proof.
  intros W svc items items' ds Hall Hb.
  assert (Hsub : forall l, Forall whole_item l ->
                 zsum (map (fun it => Z.abs (whole_amount it)) l) < 2 ^ 53 ->
                 subtotal (amounts svc l ds) = exact_int (zsum (map whole_amount l))).
  { intros l Hl Hlb. rewrite subtotal_amounts.
    change zero with (exact_int 0). rewrite whole_subtotal_from; [reflexivity|exact Hl|].
    simpl Z.abs. lia. }
  assert (Habs : forall l, Z.abs (zsum (map whole_amount l))
                           <= zsum (map (fun it => Z.abs (whole_amount it)) l)).
  { induction l as [|it l IH]; simpl; lia. }
  split.
  - rewrite Hsub by assumption. symmetry. apply of_int_exact.
    unfold prec. specialize (Habs items). lia.
  - intro Hperm.
    rewrite (Hsub items Hall Hb).
    rewrite Hsub.
    + f_equal. apply zsum_perm, Permutation_map, Permutation_sym, Hperm.
    + eapply Permutation_Forall; eassumption.
    + rewrite <- (zsum_perm _ _ (Permutation_map (fun it => Z.abs (whole_amount it)) Hperm)).
      exact Hb.
Qed.

Lemma whole_number_subtotal_exact_witness :
  subtotal (amounts Main.svc Main.items Main.discounts)
  = of_int (zsum (map whole_amount Main.items)).
Proof.
  apply (proj1 (whole_number_subtotal_exact ostream Main.svc Main.items Main.items
                  Main.discounts
                  ltac:(repeat constructor; vm_compute; intuition discriminate)
                  ltac:(vm_compute; reflexivity))).
Defined.

End WholeNumbers.

(** * The lines of the rendered text *)

Module RenderFacts.
Import Format InvoiceFacts.



Lemma count_nl_app (a b : string) :
  count_nl (a ++ b) = (count_nl a + count_nl b)%nat.
Proof.
  induction a as [|c a IH]; cbn [append count_nl]; [reflexivity|].
  rewrite IH. lia.
Qed.

Lemma digit_not_nl (c : ascii) :
  is_digit c = true -> Ascii.eqb c (ascii_of_nat 10) = false.
Proof.
  intro H. destruct (Ascii.eqb_spec c (ascii_of_nat 10)) as [->|]; [|reflexivity].
  discriminate H.
Qed.

Lemma all_digits_no_nl (s : string) : all_digits s = true -> count_nl s = O.
Proof.
  induction s as [|c s IH]; cbn [all_digits count_nl]; [reflexivity|].
  intro H. apply andb_prop in H as [Hc Hs].
  rewrite (digit_not_nl c Hc), (IH Hs). reflexivity.
Qed.

Lemma strip_zeros_all_digits (s : string) :
  all_digits s = true -> all_digits (strip_zeros s) = true.
Proof.
  induction s as [|c s IH]; cbn [all_digits strip_zeros]; [reflexivity|].
  intro H. apply andb_prop in H as [Hc Hs]. specialize (IH Hs).
  destruct (strip_zeros s) as [|c' r].
  - destruct (Ascii.eqb c "0"); cbn [all_digits]; [reflexivity|].
    now rewrite Hc.
  - cbn [all_digits] in *. now rewrite Hc, IH.
Qed.

Lemma dec_no_nl (n : Z) : count_nl (dec n) = O.
Proof.
  destruct n as [|p|p].
  - reflexivity.
  - apply all_digits_no_nl, dec_nonneg. lia.
  - unfold dec. change (Z.to_int (Z.neg p)) with (Decimal.Neg (Pos.to_uint p)).
    unfold NilZero.string_of_int. cbn [count_nl].
    change (NilZero.string_of_uint (Pos.to_uint p)) with (dec (Z.pos p)).
    rewrite (all_digits_no_nl _ (proj1 (dec_nonneg (Z.pos p) ltac:(lia)))).
    reflexivity.
Qed.

Lemma with_fraction_no_nl (a b : string) :
  count_nl a = O -> count_nl b = O -> count_nl (with_fraction a b) = O.
Proof.
  intros Ha Hb. unfold with_fraction. destruct b as [|c b]; [exact Ha|].
  rewrite !count_nl_app, Ha, Hb. reflexivity.
Qed.

Lemma sign_str_no_nl (s : bool) : count_nl (sign_str s) = O.
Proof. destruct s; reflexivity. Qed.

Lemma show_double_no_nl (x : double) : count_nl (show_double x) = O.
Proof.
  destruct x as [s|s| |s m e]; try (destruct s; reflexivity); [reflexivity|].
  unfold show_double.
  set (x0 := exp10 m e). set (n0 := scaled m e (5 - x0)).
  destruct (if 10 ^ 6 <=? n0 then (10 ^ 5, x0 + 1) else (n0, x0)) as [n X].
  assert (Hfr : forall k, count_nl (strip_zeros (fixed_digits k n)) = O).
  { intro k. apply all_digits_no_nl, strip_zeros_all_digits, fixed_digits_all_digits. }
  destruct ((-4 <=? X) && (X <? 6)).
  - rewrite count_nl_app, sign_str_no_nl.
    apply with_fraction_no_nl; [apply dec_no_nl | apply Hfr].
  - rewrite !count_nl_app, sign_str_no_nl, dec_no_nl.
    rewrite with_fraction_no_nl by (apply dec_no_nl || apply Hfr).
    destruct (X <? 0), (Z.abs X <? 10); reflexivity.
Qed.


Lemma count_nl_unlines (ls : list string) :
  count_nl (unlines ls) = (List.length ls + list_sum (map count_nl ls))%nat.
Proof.
  induction ls as [|l ls IH].
  - reflexivity.
  - rewrite unlines_cons, !count_nl_app, IH. cbn [List.length map list_sum fold_right].
    change (count_nl nl) with 1%nat. unfold list_sum. lia.
Qed.

Lemma item_line_count_nl (it : LineItem) :
  count_nl (item_line it) = count_nl (sku it).
Proof.
  unfold item_line, show_int.
  rewrite !count_nl_app, dec_no_nl, show_double_no_nl. cbn [count_nl].
  change (Ascii.eqb " " (ascii_of_nat 10)) with false.
  change (Ascii.eqb "x" (ascii_of_nat 10)) with false.
  change (Ascii.eqb "@" (ascii_of_nat 10)) with false.
  cbv iota. lia.
Qed.

(** The text of [SimpleTextRenderer::render] has one newline per line
    of the layout, plus those the SKUs bring: numbers are printed
    without newline, so the text has exactly [1 + items + 4] lines
    when no SKU contains a newline, and every newline inside a SKU
    adds a line. *)
Theorem rendered_line_count :
  forall (items : list LineItem) (subtotal discount tax grand : double),
    count_nl (SimpleTextRenderer.render items subtotal discount tax grand)
    = (1 + List.length items + 4
       + list_sum (map (fun it => count_nl (sku it)) items))%nat
    /\ (Forall (fun it => count_nl (sku it) = O) items ->
        count_nl (SimpleTextRenderer.render items subtotal discount tax grand)
        = (1 + List.length items + 4)%nat).
Proof.
  intros items s d t g.
  assert (H : count_nl (SimpleTextRenderer.render items s d t g)
              = (1 + List.length items + 4
                 + list_sum (map (fun it => count_nl (sku it)) items))%nat).
  { rewrite render_layout, count_nl_unlines.
    cbn [List.length map list_sum fold_right].
    rewrite length_app, length_map, map_app, list_sum_app, map_map.
    rewrite (map_ext _ _ item_line_count_nl).
    unfold summary_lines. cbn [List.length map list_sum fold_right].
    rewrite !count_nl_app, !show_double_no_nl.
    change (count_nl "INVOICE") with O. change (count_nl "Subtotal: ") with O.
    change (count_nl "Discounts: ") with O. change (count_nl "Tax: ") with O.
    change (count_nl "Total: ") with O. unfold list_sum. lia. }
  split; [exact H|].
  intro Hall. rewrite H. clear H.
  replace (list_sum (map (fun it => count_nl (sku it)) items)) with O; [lia|].
  induction Hall as [|it items Hit _ IH]; cbn [map list_sum fold_right]; [reflexivity|].
  unfold list_sum in IH. lia.
Qed.

Lemma rendered_line_count_witness :
  count_nl (SimpleTextRenderer.render Main.items zero zero zero zero)
  = (1 + List.length Main.items + 4)%nat.
Proof.
  apply (proj2 (rendered_line_count Main.items zero zero zero zero)).
  repeat constructor.
Defined.

End RenderFacts.

(** * Whole-number invoices with discounts *)

Module WholeDiscounts.
Import InvoiceService WholeNumbers.


Lemma sub_as_add (x y : double) : (x - y)%D = (x + SFopp y)%D.
Proof.
  destruct x as [sx|sx| |sx mx ex], y as [sy|sy| |sy my ey];
    try reflexivity; destruct sx, sy; reflexivity.
Qed.

Lemma exact_int_opp (z : Z) : SFopp (exact_int z) = exact_int (- z) \/ z = 0.
Proof. destruct z; [right; reflexivity | left; reflexivity | left; reflexivity]. Qed.

Lemma sub_exact (a b : Z) :
  Z.abs a < 2 ^ prec -> Z.abs b < 2 ^ prec -> Z.abs (a - b) < 2 ^ prec ->
  (exact_int a - exact_int b)%D = exact_int (a - b).
Proof.
  intros Ha Hb Hc. destruct (exact_int_opp b) as [H| ->].
  - rewrite sub_as_add, H. replace (a - b) with (a + - b) in * by lia.
    apply add_exact; rewrite ?Z.abs_opp; assumption.
  - replace (a - 0) with a by lia. destruct a; reflexivity.
Qed.

Lemma flat_discount_total_from (amts : list Z) (s : double) (A : Z) :
  Forall int_range amts ->
  Z.abs A + zsum (map Z.abs amts) < 2 ^ 53 ->
  fold_left (fun dt d => (dt + IDiscountStrategy.compute d s)%D)
            (map FlatOff.make amts) (exact_int A)
  = exact_int (A + zsum amts).
Proof.
  revert A; induction amts as [|a amts IH]; intros A Hall Hb.
  - simpl. f_equal. lia.
  - inversion Hall as [|? ? Ha Hall']; subst.
    assert (Hnn : 0 <= zsum (map Z.abs amts)).
    { clear. induction amts; simpl; lia. }
    cbn [map fold_left zsum fold_right] in *.
    fold (zsum amts). fold (zsum (map Z.abs amts)) in Hb.
    change (IDiscountStrategy.compute (FlatOff.make a) s) with (of_int a).
    rewrite of_int_exact by (unfold prec; lia).
    rewrite add_exact by (unfold prec; lia).
    rewrite IH; [f_equal; lia | exact Hall' | lia].
Qed.

Lemma zsum_abs_bound (l : list Z) : Z.abs (zsum l) <= zsum (map Z.abs l).
Proof. induction l; simpl; lia. Qed.

Lemma whole_amounts_abs (items : list LineItem) :
  map (fun it => Z.abs (whole_amount it)) items = map Z.abs (map whole_amount items).
Proof. now rewrite map_map. Qed.

(** With whole-number items and [FlatOff] discounts nothing is rounded
    before the tax: when the absolute extended prices and the absolute
    discount amounts sum to less than [2^53], the subtotal, the
    discount total and the taxable base are the exact integer sums and
    difference, and all four amounts are the same for every
    permutation of the items and of the discounts. *)
Theorem whole_number_flat_discounts :
  forall (W : Type) (svc : InvoiceService.t W)
         (items items' : list LineItem) (amts amts' : list Z),
    Forall whole_item items ->
    Forall int_range amts ->
    zsum (map (fun it => Z.abs (whole_amount it)) items) + zsum (map Z.abs amts) < 2 ^ 53 ->
    let a := amounts svc items (map FlatOff.make amts) in
    subtotal a = of_int (zsum (map whole_amount items))
    /\ discount_total a = of_int (zsum amts)
    /\ (subtotal a - discount_total a)%D
       = of_int (zsum (map whole_amount items) - zsum amts)
    /\ (Permutation items items' -> Permutation amts amts' ->
        amounts svc items' (map FlatOff.make amts') = a).
Proof.
  intros W svc items items' amts amts' Hit Ham Hb a.
  pose proof (zsum_abs_nonneg items) as Hn1.
  assert (Hn2 : 0 <= zsum (map Z.abs amts)) by (clear; induction amts; simpl; lia).
  pose proof (zsum_abs_bound (map whole_amount items)) as HS.
  rewrite <- whole_amounts_abs in HS.
  pose proof (zsum_abs_bound amts) as HD.
  destruct (whole_number_subtotal_exact W svc items items' (map FlatOff.make amts) Hit
              ltac:(lia)) as [Hs Hperm].
  fold a in Hs.
  assert (Hd : forall l s, Forall int_range l -> zsum (map Z.abs l) < 2 ^ 53 ->
               fold_left (fun dt d => (dt + IDiscountStrategy.compute d s)%D)
                         (map FlatOff.make l) zero = of_int (zsum l)).
  { intros l s Hl Hlb. change zero with (exact_int 0).
    rewrite flat_discount_total_from; [|exact Hl|simpl Z.abs; lia].
    simpl Z.add. symmetry. apply of_int_exact.
    pose proof (zsum_abs_bound l). unfold prec. lia. }
  assert (Hdt : discount_total a = of_int (zsum amts)).
  { apply Hd; [exact Ham | lia]. }
  split; [exact Hs|]. split; [exact Hdt|]. split.
  - rewrite Hs, Hdt, !of_int_exact by (unfold prec; lia).
    apply sub_exact; unfold prec; lia.
  - intros Hp1 Hp2.
    assert (Hs' : subtotal (amounts svc items' (map FlatOff.make amts')) = subtotal a).
    { rewrite Hs. rewrite !subtotal_amounts.
      rewrite <- subtotal_amounts with (svc := svc) (ds := map FlatOff.make amts).
      rewrite (Hperm Hp1). exact Hs. }
    assert (Hd' : discount_total (amounts svc items' (map FlatOff.make amts'))
                  = discount_total a).
    { rewrite Hdt. rewrite (zsum_perm _ _ Hp2).
      apply Hd.
      - eapply Permutation_Forall; eassumption.
      - rewrite <- (zsum_perm _ _ (Permutation_map Z.abs Hp2)). lia. }
    assert (Hrec : forall its dss,
               amounts svc its dss
               = {| subtotal := subtotal (amounts svc its dss);
                    discount_total := discount_total (amounts svc its dss);
                    tax := ITaxRule.compute (taxRule svc)
                             (subtotal (amounts svc its dss)
                              - discount_total (amounts svc its dss))%D;
                    grand := (subtotal (amounts svc its dss)
                              - discount_total (amounts svc its dss)
                              + ITaxRule.compute (taxRule svc)
                                  (subtotal (amounts svc its dss)
                                   - discount_total (amounts svc its dss)))%D |})
      by reflexivity.
    rewrite (Hrec items'), Hs', Hd'. symmetry. apply Hrec.
Qed.


Lemma full_percent_discount (z : Z) :
  Z.abs z < 2 ^ prec ->
  PercentOff.compute (of_int 100) (exact_int z) = exact_int z.
Proof.
  intro H. unfold PercentOff.compute.
  change (of_int 100 / of_int 100)%D with (exact_int 1).
  destruct (Z.eq_dec z 0) as [->|Hz]; [reflexivity|].
  rewrite mul_exact by (try lia; rewrite Z.mul_1_r; exact H).
  f_equal. lia.
Qed.

(** A 100% discount on a whole-number invoice leaves nothing to pay:
    under the 18% rule with the single strategy [PercentOff(100)], the
    discount total is exactly the subtotal, and the tax and the grand
    total are 0.0. *)
Theorem full_percent_discount_zero_total :
  forall (W : Type) (e : IEmailService.t W) (l : ILogger.t W) (items : list LineItem),
    Forall whole_item items ->
    zsum (map (fun it => Z.abs (whole_amount it)) items) < 2 ^ 53 ->
    amounts (gst_text_service e l) items [PercentOff.make (of_int 100)]
    = {| subtotal := of_int (zsum (map whole_amount items));
         discount_total := of_int (zsum (map whole_amount items));
         tax := zero; grand := zero |}.
Proof.
  intros W e l items Hit Hb.
  destruct (whole_number_subtotal_exact W (gst_text_service e l) items items
              [PercentOff.make (of_int 100)] Hit Hb) as [Hs _].
  pose proof (zsum_abs_bound (map whole_amount items)) as HS.
  rewrite <- whole_amounts_abs in HS.
  set (S := zsum (map whole_amount items)) in *.
  assert (HSb : Z.abs S < 2 ^ prec) by (unfold prec; lia).
  rewrite (of_int_exact S HSb) in Hs |- *.
  unfold amounts in *. cbn [subtotal] in Hs. rewrite Hs.
  cbn [fold_left]. 
  change (IDiscountStrategy.compute (PercentOff.make (of_int 100)) (exact_int S))
    with (PercentOff.compute (of_int 100) (exact_int S)).
  rewrite (full_percent_discount S HSb).
  change zero with (exact_int 0). rewrite add_exact by (simpl; try lia; exact HSb).
  simpl Z.add.
  rewrite sub_exact by (rewrite ?Z.sub_diag; simpl; try lia; exact HSb).
  rewrite Z.sub_diag. reflexivity.
Qed.

Lemma whole_main_items : Forall whole_item Main.items.
Proof. repeat constructor; vm_compute; intuition discriminate. Qed.

Lemma whole_number_flat_discounts_witness :
  discount_total (amounts Main.svc Main.items (map FlatOff.make [50; 5]))
  = of_int (zsum [50; 5]).
Proof.
  apply (proj1 (proj2 (whole_number_flat_discounts ostream Main.svc
                         Main.items Main.items [50; 5] [50; 5]
                         whole_main_items
                         ltac:(repeat constructor; vm_compute; intuition discriminate)
                         ltac:(vm_compute; reflexivity)))).
Defined.

Lemma full_percent_discount_zero_total_witness :
  amounts (gst_text_service ConsoleEmailService.make ConsoleLogger.make)
          Main.items [PercentOff.make (of_int 100)]
  = {| subtotal := of_int (zsum (map whole_amount Main.items));
       discount_total := of_int (zsum (map whole_amount Main.items));
       tax := zero; grand := zero |}.
Proof.
  apply (full_percent_discount_zero_total ostream ConsoleEmailService.make
           ConsoleLogger.make Main.items whole_main_items).
  vm_compute. reflexivity.
Defined.

End WholeDiscounts.

(** * The sign of the totals *)

Module TotalsFacts.
Import InvoiceService.


Lemma binary_round_sign (s : bool) (m : positive) (e : Z) :
  has_sign s (binary_round prec emax s m e).
Proof.
  unfold binary_round.
  destruct (shl_align m e (fexp prec emax (Z.pos (digits2_pos m) + e))) as [mz ez].
  apply binary_round_aux_sign. lia.
Qed.

Lemma add_same_sign (s : bool) (x y : double) :
  has_sign s x -> has_sign s y -> has_sign s (x + y)%D.
Proof.
  intros Hx Hy.
  destruct x as [sx|sx| |sx mx ex], y as [sy|sy| |sy my ey]; simpl in Hx, Hy;
    try contradiction; subst; try (destruct s; exact eq_refl).
  unfold add, SFadd.
  set (X := Z.pos (fst (shl_align mx ex (Z.min ex ey)))).
  set (Y := Z.pos (fst (shl_align my ey (Z.min ex ey)))).
  destruct s; unfold cond_Zopp.
  - destruct (- X + - Y) as [|p|p] eqn:E; try (unfold X, Y in E; lia).
    apply binary_round_sign.
  - destruct (X + Y) as [|p|p] eqn:E; try (unfold X, Y in E; lia).
    apply binary_round_sign.
Qed.

(** Under the 18% rule the tax never flips a sign: whenever the taxable
    base [subtotal - discount_total] is not a NaN, the tax and the
    grand total are not NaN either and carry the sign of the base, so
    an over-discounted invoice always ends with a total of negative
    sign. *)
Theorem grand_total_keeps_sign_of_base :
  forall (W : Type) (r : IInvoiceRenderer.t) (e : IEmailService.t W) (l : ILogger.t W)
         (items : list LineItem) (ds : list IDiscountStrategy.t),
    let a := amounts {| taxRule := GST18.make; renderer := r;
                        emailer := e; logger := l |} items ds in
    let base := (subtotal a - discount_total a)%D in
    is_nan base = false ->
    has_sign (signbit base) (tax a) /\ has_sign (signbit base) (grand a).
Proof.
  intros W r e l items ds a base Hn.
  assert (Ht : has_sign (signbit base) (tax a)).
  { apply InvoiceFacts.gst18_keeps_sign. exact Hn. }
  split; [exact Ht|].
  change (grand a) with (base + tax a)%D.
  apply add_same_sign; [|exact Ht].
  destruct base; try discriminate Hn; reflexivity.
Qed.

Lemma grand_total_keeps_sign_of_base_witness :
  let a := amounts (gst_text_service Recording.emailer Recording.logger)
                   over_discounted_items [FlatOff.make 1000] in
  has_sign true (tax a) /\ has_sign true (grand a).
Proof.
  apply (grand_total_keeps_sign_of_base Recording.World SimpleTextRenderer.make
           Recording.emailer Recording.logger over_discounted_items
           [FlatOff.make 1000]).
  reflexivity.
Defined.

End TotalsFacts.

(** * The texts and calls of the invoice service *)

Lemma to_string_text_model (x : double) : to_string_text x (Format.to_string x).
Proof. destruct x; cbn [to_string_text]; [reflexivity | reflexivity | left; reflexivity | reflexivity]. Qed.

Lemma stream_text_model (x : double) : stream_text x (Format.show_double x).
Proof. destruct x; cbn [stream_text]; [reflexivity | reflexivity | left; reflexivity | reflexivity]. Qed.

Lemma audit_message_text (email : string) (g : double) :
  audit_message email g
  = ("Invoice processed for " ++ email ++ " total=" ++ Format.to_string g)%string.
Proof. reflexivity. Qed.

(** C6: in every call [send] is invoked if and only if the recipient
    address is not empty, and then once, with the address and the
    rendered text; [log] is invoked exactly once, as the last call, and
    its message is [Invoice processed for <recipient> total=<text of
    the grand total>], the recipient possibly empty.  Stated on the
    recorded calls; arbitrary collaborators receive exactly the
    recorded calls, in order.  The over-discounted invoice shows the
    calls in full, with and without recipient. *)
Theorem notification_gating :
  (forall (t : ITaxRule.t) (r : IInvoiceRenderer.t) (items : list LineItem)
          (ds : list IDiscountStrategy.t) (email : string),
      let svc := Recording.svc t r in
      let content := fst (process svc items ds email []) in
      let calls := snd (process svc items ds email []) in
      let g := grand (amounts svc items ds) in
      ((exists addr c, In (Recording.Send addr c) calls) <-> email <> EmptyString)
      /\ (forall addr c, In (Recording.Send addr c) calls -> addr = email /\ c = content)
      /\ (List.length (filter Recording.is_send calls) <= 1)%nat
      /\ List.length (filter Recording.is_log calls) = 1%nat
      /\ (exists (before : list Recording.Call) (total_text : string),
             calls = before
                       ++ [Recording.Log ("Invoice processed for " ++ email
                                            ++ " total=" ++ total_text)]
             /\ to_string_text g total_text
             /\ forallb Recording.is_send before = true)
      /\ (forall (W : Type) (e : IEmailService.t W) (l : ILogger.t W) (w : W),
             snd (process {| taxRule := t; renderer := r; emailer := e; logger := l |}
                          items ds email w)
             = Recording.replay e l calls w))
  /\ (snd (process (Recording.svc GST18.make SimpleTextRenderer.make)
             over_discounted_items [FlatOff.make 1000] "a@b.c" [])
      = [ Recording.Send "a@b.c"
            (unlines [ "INVOICE"; "ITEM-001 x1 @ 100"; "Subtotal: 100";
                       "Discounts: 1000"; "Tax: -162"; "Total: -1062" ]%string);
          Recording.Log "Invoice processed for a@b.c total=-1062.000000" ]
      /\ snd (process (Recording.svc GST18.make SimpleTextRenderer.make)
                over_discounted_items [FlatOff.make 1000] EmptyString [])
         = [ Recording.Log "Invoice processed for  total=-1062.000000" ]).
Proof.
  split; [|split; vm_compute; reflexivity].
  intros t r items ds email svc content calls g.
  assert (Hc : calls = (if String.eqb email EmptyString then []
                        else [Recording.Send email content])
                       ++ [Recording.Log (audit_message email g)])
    by apply process_calls.
  assert (Hr : forall (W : Type) (e : IEmailService.t W) (l : ILogger.t W) (w : W),
             snd (process {| taxRule := t; renderer := r; emailer := e; logger := l |}
                          items ds email w)
             = Recording.replay e l calls w).
  { intros W e l w.
    apply (process_replay
             {| taxRule := t; renderer := r; emailer := e; logger := l |}). }
  pose proof (to_string_text_model g) as Ht.
  clearbody calls content g. rewrite audit_message_text in Hc.
  destruct (String.eqb_spec email EmptyString) as [He|He]; subst calls;
    cbn [app In filter Recording.is_send Recording.is_log List.length].
  - split; [split|].
    + intros (addr & c & [H|[]]). discriminate H.
    + intros H. now elim H.
    + split; [intros addr c [H|[]]; discriminate H|].
      split; [lia|]. split; [reflexivity|].
      split; [|exact Hr].
      exists [], (Format.to_string g). repeat split; assumption.
  - split; [split|].
    + intros _. exact He.
    + intros _. exists email, content. now left.
    + split.
      { intros addr c [H|[H|[]]]; [now inversion H | discriminate H]. }
      split; [lia|]. split; [reflexivity|].
      split; [|exact Hr].
      exists [Recording.Send email content], (Format.to_string g).
      repeat split; assumption.
Qed.

Lemma item_lines_with (items : list LineItem) :
  Forall2 (fun it line =>
             exists v, stream_text (unitPrice it) v /\ line = item_line_with it v)
          items (map item_line items).
Proof.
  induction items as [|it items IH]; cbn [map]; constructor; [|exact IH].
  exists (Format.show_double (unitPrice it)).
  split; [apply stream_text_model | reflexivity].
Qed.

Lemma list_sum_zero (l : list nat) : Forall (fun n => n = O) l -> list_sum l = O.
Proof. induction 1 as [|n l Hn _ IH]; [reflexivity|]. cbn [list_sum fold_right]. unfold list_sum in IH. lia. Qed.

Lemma render_newlines (items : list LineItem) (s d t g : double) :
  Forall (fun it => count_nl (sku it) = O) items ->
  count_nl (SimpleTextRenderer.render items s d t g) = (1 + List.length items + 4)%nat.
Proof.
  intro Hall.
  rewrite render_layout, RenderFacts.count_nl_unlines.
  rewrite list_sum_zero.
  - unfold summary_lines. cbn [List.length]. rewrite length_app, length_map. cbn [List.length]. lia.
  - cbn [map]. constructor; [reflexivity|]. rewrite map_app. apply Forall_app. split.
    + rewrite map_map. apply Forall_map.
      apply (Forall_impl _ (P := fun it => count_nl (sku it) = O)); [|exact Hall].
      intros it Hit. rewrite RenderFacts.item_line_count_nl. exact Hit.
    + unfold summary_lines. cbn [map].
      repeat constructor;
        rewrite RenderFacts.count_nl_app, RenderFacts.show_double_no_nl; reflexivity.
Qed.

(** C8, as stated, fails: an item whose SKU holds a newline takes two
    lines of the text, which then has seven lines for one item. *)
Lemma rendered_text_layout_counterexample :
  let text := fst (process (Recording.svc GST18.make SimpleTextRenderer.make)
                           newline_sku_items [] EmptyString []) in
  text = unlines [ "INVOICE"; "A"; "B x1 @ 100"; "Subtotal: 100"; "Discounts: 0";
                   "Tax: 18"; "Total: 118" ]%string
  /\ count_nl text = 7%nat
  /\ (1 + List.length newline_sku_items + 4 = 6)%nat.
Proof. repeat split; vm_compute; reflexivity. Qed.

(** C8 (amended): with the text renderer, the text returned by
    [process] is the header [INVOICE], then for each item in input
    order the piece [<sku> x<quantity> @ <unitPrice>], then the four
    pieces [Subtotal: <v>], [Discounts: <v>], [Tax: <v>], [Total: <v>]
    in this order, each piece ended by a newline and each number
    written as the stream writes it; when no SKU contains a newline
    these pieces are exactly the lines of the text, one per item
    between the header and the four summary lines.  The invoice of the
    demonstration shows the seven lines in full. *)
Theorem rendered_text_layout :
  (forall (W : Type) (t : ITaxRule.t) (e : IEmailService.t W) (l : ILogger.t W)
          (items : list LineItem) (ds : list IDiscountStrategy.t)
          (email : string) (w : W),
      let svc := {| taxRule := t; renderer := SimpleTextRenderer.make;
                    emailer := e; logger := l |} in
      let a := amounts svc items ds in
      let text := fst (process svc items ds email w) in
      (exists (item_lines : list string) (v1 v2 v3 v4 : string),
          text = unlines ("INVOICE"%string :: item_lines
                            ++ [ "Subtotal: " ++ v1; "Discounts: " ++ v2;
                                 "Tax: " ++ v3; "Total: " ++ v4 ]%string)
          /\ Forall2 (fun it line =>
                        exists v, stream_text (unitPrice it) v
                                  /\ line = item_line_with it v)
                     items item_lines
          /\ stream_text (subtotal a) v1
          /\ stream_text (discount_total a) v2
          /\ stream_text (tax a) v3
          /\ stream_text (grand a) v4)
      /\ (Forall (fun it => count_nl (sku it) = O) items ->
          count_nl text = (1 + List.length items + 4)%nat))
  /\ fst (process Main.svc Main.items Main.discounts
            "customer@example.com"%string EmptyString)
     = unlines [ "INVOICE"; "ITEM-001 x3 @ 100"; "ITEM-002 x1 @ 250";
                 "Subtotal: 550"; "Discounts: 55"; "Tax: 89.1"; "Total: 584.1" ]%string.
Proof.
  split; [|vm_compute; reflexivity].
  intros W t e l items ds email w svc a text.
  assert (Ht : text = SimpleTextRenderer.render items (subtotal a) (discount_total a)
                        (tax a) (grand a)) by reflexivity.
  clearbody text a. subst text. split.
  - exists (map item_line items), (Format.show_double (subtotal a)),
      (Format.show_double (discount_total a)), (Format.show_double (tax a)),
      (Format.show_double (grand a)).
    split; [apply render_layout|]. split; [apply item_lines_with|].
    repeat split; apply stream_text_model.
  - apply render_newlines.
Qed.

Lemma rendered_text_layout_witness :
  count_nl (fst (process Main.svc Main.items Main.discounts
                         "customer@example.com"%string EmptyString))
  = (1 + List.length Main.items + 4)%nat.
Proof.
  apply (proj2 (proj1 rendered_text_layout ostream GST18.make ConsoleEmailService.make
                  ConsoleLogger.make Main.items Main.discounts
                  "customer@example.com"%string EmptyString)).
  repeat constructor.
Defined.

Lemma to_string_six_decimals (x : double) :
  is_finite x = true -> has_six_decimals (Format.to_string x).
Proof.
  intro H. destruct (InvoiceFacts.to_string_finite x H) as (ip & fr & E & Hl & Hf & Hi & Hn).
  exists (signbit x), ip, fr. repeat split; assumption.
Qed.

Lemma inf_not_six_decimals : ~ has_six_decimals "inf".
Proof.
  intros (s & ip & fr & E & _ & _ & Hl & _).
  apply (f_equal String.length) in E.
  rewrite !string_app_length, Hl in E. cbn [String.length] in E. lia.
Qed.

(** C10, as stated, fails: ten items at 1e308 overflow the total, and
    the audit message ends in [total=inf], without decimal point. *)
Lemma audit_message_counterexample :
  snd (process (Recording.svc GST18.make SimpleTextRenderer.make)
               overflow_items [] EmptyString [])
  = [Recording.Log "Invoice processed for  total=inf"]
  /\ Format.to_string (grand (amounts (Recording.svc GST18.make SimpleTextRenderer.make)
                                      overflow_items []))
     = "inf"%string
  /\ ~ has_six_decimals "inf".
Proof.
  split; [vm_compute; reflexivity|]. split; [vm_compute; reflexivity|].
  exact inf_not_six_decimals.
Qed.

Lemma log_calls t r items ds email :
  filter Recording.is_log (snd (process (Recording.svc t r) items ds email []))
  = [Recording.Log (audit_message email (grand (amounts (Recording.svc t r) items ds)))].
Proof.
  pose proof (process_calls t r items ds email) as H. cbv zeta in H. rewrite H.
  destruct (String.eqb email EmptyString); reflexivity.
Qed.

(** C10 (amended): the audit message of every call is
    [Invoice processed for ] + recipient + [ total=] + the text
    [std::to_string] gives for the grand total: for a finite total an
    optional minus sign, digits, a point and exactly six digits, for an
    infinite total [inf] or [-inf]; with an empty recipient the message
    still holds the fragment [for  total=].  The invoice of the
    demonstration logs [total=584.100000]. *)
Theorem audit_message_format :
  (forall (t : ITaxRule.t) (r : IInvoiceRenderer.t) (items : list LineItem)
          (ds : list IDiscountStrategy.t) (email : string),
      let svc := Recording.svc t r in
      let calls := snd (process svc items ds email []) in
      let g := grand (amounts svc items ds) in
      exists total_text : string,
        filter Recording.is_log calls
        = [Recording.Log ("Invoice processed for " ++ email ++ " total=" ++ total_text)]
        /\ to_string_text g total_text
        /\ (is_finite g = true -> has_six_decimals total_text)
        /\ (forall s : bool, g = S754_infinity s ->
                             total_text = (Format.sign_str s ++ "inf")%string)
        /\ (email = EmptyString ->
            filter Recording.is_log calls
            = [Recording.Log ("Invoice processed for  total=" ++ total_text)]))
  /\ snd (process (Recording.svc GST18.make SimpleTextRenderer.make)
            Main.items Main.discounts EmptyString [])
     = [Recording.Log "Invoice processed for  total=584.100000"].
Proof.
  split; [|vm_compute; reflexivity].
  intros t r items ds email svc calls g.
  assert (Hl : filter Recording.is_log calls = [Recording.Log (audit_message email g)])
    by apply log_calls.
  clearbody calls g. rewrite audit_message_text in Hl.
  exists (Format.to_string g).
  split; [exact Hl|]. split; [apply to_string_text_model|].
  split; [apply to_string_six_decimals|]. split.
  - intros s ->. reflexivity.
  - intros ->. exact Hl.
Qed.

Lemma audit_message_format_witness :
  exists total_text : string,
    filter Recording.is_log
           (snd (process (Recording.svc GST18.make SimpleTextRenderer.make)
                         over_discounted_items [FlatOff.make 1000] EmptyString []))
    = [Recording.Log ("Invoice processed for  total=" ++ total_text)]
    /\ has_six_decimals total_text.
Proof.
  destruct (proj1 audit_message_format GST18.make SimpleTextRenderer.make
              over_discounted_items [FlatOff.make 1000] EmptyString)
    as (v & _ & _ & Hfin & _ & Hempty).
  exists v. split; [apply Hempty; reflexivity | apply Hfin; reflexivity].
Defined.

(** C3, as stated, fails: items priced 0.10, 0.20 and 0.30 give another
    subtotal when the sequence is reversed. *)
Lemma subtotal_permutation_counterexample :
  Permutation cents_items (rev cents_items)
  /\ subtotal (amounts (Recording.svc GST18.make SimpleTextRenderer.make) cents_items [])
     <> subtotal (amounts (Recording.svc GST18.make SimpleTextRenderer.make)
                          (rev cents_items) []).
Proof.
  split; [apply Permutation_rev|]. vm_compute. discriminate.
Qed.

Lemma whole_subtotal {W} (svc : InvoiceService.t W) items ds :
  Forall whole_item items ->
  zsum (map (fun it => Z.abs (whole_amount it)) items) < 2 ^ 53 ->
  subtotal (amounts svc items ds) = exact_int (zsum (map whole_amount items)).
Proof.
  intros Hl Hlb. rewrite subtotal_amounts.
  change zero with (exact_int 0).
  rewrite WholeNumbers.whole_subtotal_from; [reflexivity | exact Hl |].
  simpl Z.abs. lia.
Qed.

(** C3 (amended): the subtotal computed by [process] is the sum of
    quantity times unit price over the items, accumulated from 0.0 in
    input order in double arithmetic; when the quantities are [int]s,
    the unit prices whole numbers and the absolute extended prices sum
    to less than [2^53], nothing is rounded: the subtotal is the exact
    integer sum and is the same for every permutation of the items. *)
Theorem subtotal_sum_in_order :
  forall (W : Type) (svc : InvoiceService.t W) (items items' : list LineItem)
         (ds : list IDiscountStrategy.t),
    subtotal (amounts svc items ds) = dsum (map extended_price items)
    /\ (Forall whole_item items ->
        zsum (map (fun it => Z.abs (whole_amount it)) items) < 2 ^ 53 ->
        Permutation items items' ->
        subtotal (amounts svc items ds) = of_int (zsum (map whole_amount items))
        /\ subtotal (amounts svc items' ds) = subtotal (amounts svc items ds)).
Proof.
  intros W svc items items' ds. split; [apply InvoiceFacts.subtotal_as_dsum|].
  intros Hall Hb Hperm.
  assert (Habs : Z.abs (zsum (map whole_amount items))
                 <= zsum (map (fun it => Z.abs (whole_amount it)) items)).
  { clear. induction items as [|it l IH]; simpl; lia. }
  rewrite (whole_subtotal svc items ds Hall Hb). split.
  - symmetry. apply WholeNumbers.of_int_exact. unfold prec. lia.
  - rewrite (whole_subtotal svc items' ds).
    + f_equal. apply WholeNumbers.zsum_perm, Permutation_map, Permutation_sym, Hperm.
    + eapply Permutation_Forall; eassumption.
    + rewrite <- (WholeNumbers.zsum_perm _ _
                    (Permutation_map (fun it => Z.abs (whole_amount it)) Hperm)).
      exact Hb.
Qed.

Lemma subtotal_sum_in_order_witness :
  subtotal (amounts Main.svc Main.items Main.discounts)
  = of_int (zsum (map whole_amount Main.items))
  /\ subtotal (amounts Main.svc (rev Main.items) Main.discounts)
     = subtotal (amounts Main.svc Main.items Main.discounts).
Proof.
  apply (proj2 (subtotal_sum_in_order ostream Main.svc Main.items (rev Main.items)
                  Main.discounts)).
  - repeat constructor; vm_compute; intuition discriminate.
  - vm_compute. reflexivity.
  - apply Permutation_rev.
Defined.



(** With the console collaborators of the program, one call returns
    the text of the renderer and writes to [cout] the SMTP line, only
    when the recipient is not empty, then the LOG line with the audit
    message; the rendered text itself is not written. *)
Theorem process_console_output :
  forall (t : ITaxRule.t) (r : IInvoiceRenderer.t) (items : list LineItem)
         (ds : list IDiscountStrategy.t) (email : string) (cout : ostream),
    let svc := {| taxRule := t; renderer := r;
                  emailer := ConsoleEmailService.make;
                  logger := ConsoleLogger.make |} in
    let a := amounts svc items ds in
    exists total_text : string,
      to_string_text (grand a) total_text
      /\ process svc items ds email cout
         = (IInvoiceRenderer.render r items (subtotal a) (discount_total a)
              (tax a) (grand a),
            (cout
               ++ unlines
                    ((if String.eqb email EmptyString then []
                      else [ "[SMTP] Sending invoice to " ++ email ++ "..." ])
                       ++ [ "[LOG] Invoice processed for " ++ email
                              ++ " total=" ++ total_text ]))%string).
Proof.
  intros t r items ds email cout svc a.
  exists (Format.to_string (grand a)). split; [apply to_string_text_model|].
  unfold process. fold a. clearbody a.
  cbn [emailer logger renderer svc]. f_equal.
  rewrite audit_message_text.
  destruct (String.eqb email EmptyString);
    cbn [IEmailService.send ILogger.log ConsoleEmailService.make ConsoleLogger.make];
    unfold ConsoleLogger.log, ConsoleEmailService.send, put;
    cbn [app]; rewrite ?unlines_cons; unfold unlines; cbn [map String.concat];
    rewrite ?string_app_assoc; cbn [append]; rewrite ?string_app_assoc; reflexivity.
Qed.

Module NotifyConsoleFacts.
Import Notify.


(** With the console services of the program, a sign-up with an e-mail
    address writes the SMTP piece and then the Twilio piece to [cout],
    each ended by a newline: exactly two lines when neither the e-mail
    address nor the phone number contains a newline, and one more line
    for every newline they contain. *)
Theorem sign_up_console_lines :
  forall (u : User) (cout : ostream),
    email u <> EmptyString ->
    let written := unlines [ "[SMTP] template=welcome to=" ++ email u ++ " body=Welcome!";
                             "[Twilio] OTP 123456 -> " ++ phone u ]%string in
    SignUpService.signUp (composition_root SmtpMailer.make TwilioClient.make) u cout
    = (true, (cout ++ written)%string)
    /\ count_nl written = (2 + count_nl (email u) + count_nl (phone u))%nat.
Proof.
  intros u cout He written. split.
  - unfold SignUpService.signUp.
    destruct (String.eqb_spec (email u) EmptyString) as [E|E]; [contradiction|].
    f_equal. simpl. unfold CompositeNotifier.notify. simpl.
    unfold WelcomeEmailNotifier.notify, OTPNotifier.notify. simpl.
    unfold SmtpMailer.sendEmail, TwilioClient.sendSMS, put.
    unfold written. rewrite !unlines_cons. unfold unlines. simpl.
    rewrite !string_app_assoc. simpl. reflexivity.
  - unfold written. rewrite RenderFacts.count_nl_unlines.
    cbn [List.length map list_sum fold_right].
    rewrite !RenderFacts.count_nl_app.
    change (count_nl "[SMTP] template=welcome to=") with O.
    change (count_nl " body=Welcome!") with O.
    change (count_nl "[Twilio] OTP 123456 -> ") with O. lia.
Qed.

Lemma sign_up_console_lines_witness :
  SignUpService.signUp (composition_root SmtpMailer.make TwilioClient.make)
    {| email := "user@example.com"; phone := "+15550001111" |} EmptyString
  = (true,
     unlines [ "[SMTP] template=welcome to=user@example.com body=Welcome!";
               "[Twilio] OTP 123456 -> +15550001111" ]%string).
Proof.
  apply (proj1 (sign_up_console_lines
                  {| email := "user@example.com"; phone := "+15550001111" |}
                  EmptyString ltac:(discriminate))).
Defined.

End NotifyConsoleFacts.

(** * The demonstration programs, run *)

Example invoice_main_output :
  Main.main EmptyString
  = unlines [ "[SMTP] Sending invoice to customer@example.com...";
              "[LOG] Invoice processed for customer@example.com total=584.100000";
              "INVOICE";
              "ITEM-001 x3 @ 100";
              "ITEM-002 x1 @ 250";
              "Subtotal: 550";
              "Discounts: 55";
              "Tax: 89.1";
              "Total: 584.1" ]%string.
Proof. vm_compute. reflexivity. Qed.

Example media_main_output :
  Media.main EmptyString
  = unlines [ "Audio playing: 1"; "Camera playing: 1" ]%string.
Proof. vm_compute. reflexivity. Qed.

Example media_solved_main_output :
  MediaSolved.main EmptyString
  = inl (unlines [ "Audio playing: true"; "Camera playing: true" ]%string).
Proof. vm_compute. reflexivity. Qed.

Example notify_main_output :
  Notify.main EmptyString
  = unlines [ "[SMTP] template=welcome to=user@example.com body=Welcome!";
              "[Twilio] OTP 123456 -> +15550001111" ]%string.
Proof. vm_compute. reflexivity. Qed.
